(** * Image upload service: blob store + metadata store orchestration

    A shallow embedding of the service layer ([imageService.ts]) and of the
    HTTP controller ([src/controllers/imageController.ts]).  The two external
    back ends (the object-storage bucket and the relational [image] table)
    are modelled as fields of an explicit [World]; every call that crosses
    the process boundary is recorded in a trace and may be made to fail by a
    fault oracle, so that the partial-failure behaviour of the try/catch
    blocks can be stated and proved. *)

From stdpp Require Import base option list gmap strings pretty sorting.
From Stdlib Require Import ZArith Lia Ascii.

Local Open Scope string_scope.
Local Open Scope list_scope.
Local Open Scope Z_scope.

(** ** Data model *)

(** A row of the [image] table ([UploadResult] in the service). *)
Record Image := mkImage {
  image_id : Z;
  image_name : string;
  image_url : string;
  image_createdAt : Z
}.

(** The part of [Express.Multer.File] that the service reads. *)
Record File := mkFile {
  originalname : string;
  mimetype : string;
  buffer : list Byte.byte
}.

(** A JavaScript [Error]; only its message is ever inspected. *)
Record Error := mkError { message : string }.

(** An object held by the bucket, with the options given to [blob.save]. *)
Record Blob := mkBlob {
  blob_bytes : list Byte.byte;
  blob_contentType : string;
  blob_cacheControl : string
}.

(** The calls that leave the process: two on the bucket, four on the table. *)
Inductive Call :=
| BlobSave (bucket key : string) (content : Blob)
| BlobDelete (bucket key : string)
| ImageCreate (name url : string)
| ImageFindMany
| ImageFindUnique (id : Z)
| ImageDelete (id : Z).

Definition is_blob_call (c : Call) : bool :=
  match c with
  | BlobSave _ _ _ | BlobDelete _ _ => true
  | _ => false
  end.

(** One trace entry: the call and whether it succeeded. *)
Definition Event : Type := Call * bool.

Record World := mkWorld {
  env : gmap string string;               (* process.env *)
  clock : Z;                              (* what Date.now() reads *)
  objects : gmap (string * string) Blob;  (* (bucket, key) -> object *)
  rows : list Image;                      (* the image table, insertion order *)
  next_id : Z;                            (* autoincrement counter *)
  db_clock : Z;                           (* the clock that stamps createdAt *)
  faults : Call -> option Error;          (* transport/auth/quota failures *)
  trace : list Event;                     (* external calls made so far *)
  console : list string                   (* console.error labels *)
}.

Definition set_objects (o : gmap (string * string) Blob) (w : World) : World :=
  mkWorld (env w) (clock w) o (rows w) (next_id w) (db_clock w)
          (faults w) (trace w) (console w).

Definition set_rows (r : list Image) (n : Z) (w : World) : World :=
  mkWorld (env w) (clock w) (objects w) r n (db_clock w)
          (faults w) (trace w) (console w).

Definition log_call (c : Call) (ok : bool) (w : World) : World :=
  mkWorld (env w) (clock w) (objects w) (rows w) (next_id w) (db_clock w)
          (faults w) (trace w ++ [(c, ok)]) (console w).

Definition log_console (s : string) (w : World) : World :=
  mkWorld (env w) (clock w) (objects w) (rows w) (next_id w) (db_clock w)
          (faults w) (trace w) (console w ++ [s]).

(** ** The monad of the service: state plus exceptions *)

Inductive Result (A : Type) :=
| Ok (a : A)
| Throw (e : Error).
Arguments Ok {A} a.
Arguments Throw {A} e.

Definition M (A : Type) : Type := World -> Result A * World.

Definition ret {A} (a : A) : M A := fun w => (Ok a, w).

Definition throw {A} (e : Error) : M A := fun w => (Throw e, w).

Definition bind {A B} (m : M A) (k : A -> M B) : M B :=
  fun w =>
    match m w with
    | (Ok a, w') => k a w'
    | (Throw e, w') => (Throw e, w')
    end.

(** [try { m } catch (error) { h error }]: effects of [m] are kept. *)
Definition try_catch {A} (m : M A) (h : Error -> M A) : M A :=
  fun w =>
    match m w with
    | (Ok a, w') => (Ok a, w')
    | (Throw e, w') => h e w'
    end.

Declare Scope service_scope.
Delimit Scope service_scope with service.
Notation "x <- m ;; k" := (bind m (fun x => k))
  (at level 100, m at next level, right associativity) : service_scope.
Notation "m ;;; k" := (bind m (fun _ => k))
  (at level 100, right associativity) : service_scope.
Local Open Scope service_scope.

Definition getenv (k : string) : M (option string) :=
  fun w => (Ok (env w !! k), w).

Definition Date_now : M Z := fun w => (Ok (clock w), w).

Definition console_error (label : string) : M unit :=
  fun w => (Ok tt, log_console label w).

(** An external call: the fault oracle decides first; otherwise the back
    end runs.  Either way the attempt is appended to the trace. *)
Definition external {A} (c : Call) (body : M A) : M A :=
  fun w =>
    match faults w c with
    | Some e => (Throw e, log_call c false w)
    | None =>
        match body w with
        | (Ok a, w') => (Ok a, log_call c true w')
        | (Throw e, w') => (Throw e, log_call c false w')
        end
    end.

(** ** Strings: [split('/')], [pop()], template literals *)

Definition slash : ascii := "/"%char.

(** [s.split('/')]: never empty, [''.split('/')] is [['']]. *)
Fixpoint split_slash (s : string) : list string :=
  match s with
  | EmptyString => [EmptyString]
  | String c s' =>
      if Ascii.eqb c slash then EmptyString :: split_slash s'
      else match split_slash s' with
           | [] => [String c EmptyString]
           | seg :: segs => String c seg :: segs
           end
  end.

(** [arr.pop()]: the last element, [undefined] on an empty array. *)
Definition pop (l : list string) : option string := last l.

Fixpoint has_slash (s : string) : bool :=
  match s with
  | EmptyString => false
  | String c s' => Ascii.eqb c slash || has_slash s'
  end.

(** ** [path.extname] (Node, POSIX flavour)

    The library routine the service calls on the client's file name,
    written as Node's [lib/path.js] has it: one scan from the last index
    down to 0 that tracks where the extension starts and ends. *)

Record ExtScan := mkExtScan {
  startDot : Z;
  startPart : Z;
  scan_end : Z;
  matchedSlash : bool;
  preDotState : Z
}.

Definition dot : ascii := "."%char.

(** The body of the [for (let i = path.length - 1; i >= 0; --i)] loop;
    [n] is [i + 1].  The [break] is the branch that does not recurse. *)
Fixpoint extname_scan (path : string) (n : nat) (st : ExtScan) : ExtScan :=
  match n with
  | O => st
  | S i =>
      match String.get i path with
      | None => st
      | Some code =>
          if Ascii.eqb code slash then
            if negb (matchedSlash st)
            then mkExtScan (startDot st) (Z.of_nat i + 1) (scan_end st)
                           (matchedSlash st) (preDotState st)
            else extname_scan path i st
          else
            let st1 :=
              if scan_end st =? -1
              then mkExtScan (startDot st) (startPart st) (Z.of_nat i + 1)
                             false (preDotState st)
              else st in
            let st2 :=
              if Ascii.eqb code dot then
                if startDot st1 =? -1
                then mkExtScan (Z.of_nat i) (startPart st1) (scan_end st1)
                               (matchedSlash st1) (preDotState st1)
                else if negb (preDotState st1 =? 1)
                then mkExtScan (startDot st1) (startPart st1) (scan_end st1)
                               (matchedSlash st1) 1
                else st1
              else if negb (startDot st1 =? -1)
              then mkExtScan (startDot st1) (startPart st1) (scan_end st1)
                             (matchedSlash st1) (-1)
              else st1 in
            extname_scan path i st2
      end
  end.

Definition extname (path : string) : string :=
  let st := extname_scan path (String.length path)
                         (mkExtScan (-1) 0 (-1) true 0) in
  if (startDot st =? -1) || (scan_end st =? -1) || (preDotState st =? 0)
     || ((preDotState st =? 1) && (startDot st =? scan_end st - 1)
         && (startDot st =? startPart st + 1))
  then ""
  else String.substring (Z.to_nat (startDot st))
                 (Z.to_nat (scan_end st - startDot st)) path.

(** What the scan has established once the indices from [n] up have been
    read: the extension seen so far lies in [n, scan_end) and holds no
    slash. *)
Definition scan_inv (path : string) (n : nat) (st : ExtScan) : Prop :=
  (matchedSlash st = true -> scan_end st = -1)
  /\ (startDot st <> -1 -> scan_end st <> -1 /\ Z.of_nat n <= startDot st)
  /\ (forall j : nat, Z.of_nat n <= Z.of_nat j < scan_end st ->
                      String.get j path <> Some slash).

(** ** Object keys and public URLs *)

(** [`${Date.now()}${path.extname(file.originalname)}`] *)
Definition fileName_of (now : Z) (original : string) : string :=
  pretty now +:+ extname original.

(** [`https://storage.googleapis.com/${bucket.name}/${blob.name}`] *)
Definition publicUrl_of (bucket key : string) : string :=
  "https://storage.googleapis.com/" +:+ bucket +:+ "/" +:+ key.

(** [image.url.split('/').pop()] *)
Definition fileName_from_url (u : string) : option string :=
  pop (split_slash u).

(** ** The two back ends *)

(** [storage.bucket(name).file(key).save(buffer, options)] *)
Definition blob_save (bucket key : string) (content : Blob) : M unit :=
  external (BlobSave bucket key content)
    (fun w => (Ok tt, set_objects (<[(bucket, key) := content]> (objects w)) w)).

(** [storage.bucket(name).file(key).delete()]: an absent object is an
    error of the store (404), as no [ignoreNotFound] option is passed. *)
Definition blob_delete (bucket key : string) : M unit :=
  external (BlobDelete bucket key)
    (fun w =>
       match objects w !! (bucket, key) with
       | None => (Throw (mkError ("No such object: " +:+ bucket +:+ "/" +:+ key)), w)
       | Some _ => (Ok tt, set_objects (delete (bucket, key) (objects w)) w)
       end).

(** Modelled from the spec: the table's schema ([prisma/schema.prisma]) is
    not among the sources; by the data model the metadata store generates
    [id] on creation and stamps [createdAt] with the time of creation.
    This is [prisma.image.create({ data: { name, url } })]. *)
Definition image_create (name url : string) : M Image :=
  external (ImageCreate name url)
    (fun w =>
       let r := mkImage (next_id w) name url (db_clock w) in
       (Ok r, set_rows (rows w ++ [r]) (next_id w + 1) w)).

Definition newer_first (a b : Image) : Prop :=
  image_createdAt b ≤ image_createdAt a.

#[global] Instance newer_first_dec : RelDecision newer_first.
Proof. intros a b. unfold newer_first. apply _. Defined.

(** [prisma.image.findMany({ orderBy: { createdAt: 'desc' } })] *)
Definition image_findMany_desc : M (list Image) :=
  external ImageFindMany
    (fun w => (Ok (merge_sort newer_first (rows w)), w)).

Definition find_row (i : Z) (l : list Image) : option Image :=
  List.find (fun r => image_id r =? i) l.

(** [prisma.image.findUnique({ where: { id } })] *)
Definition image_findUnique (i : Z) : M (option Image) :=
  external (ImageFindUnique i) (fun w => (Ok (find_row i (rows w)), w)).

(** [prisma.image.delete({ where: { id } })]: rejects when no row matches. *)
Definition image_delete (i : Z) : M Image :=
  external (ImageDelete i)
    (fun w =>
       match find_row i (rows w) with
       | None => (Throw (mkError "Record to delete does not exist."), w)
       | Some r =>
           (Ok r, set_rows (List.filter (fun x => negb (image_id x =? i)) (rows w))
                           (next_id w) w)
       end).

(** ** The service ([imageService.ts]) *)

Definition getBucket : M string :=
  bucketName <- getenv "GCS_BUCKET_NAME" ;;
  match bucketName with
  | None | Some EmptyString =>
      throw (mkError "GCS_BUCKET_NAME environment variable is not set")
  | Some b => ret b
  end.

Definition cacheControl : string := "public, max-age=31536000".

Module ImageService.

Definition uploadImage (file : File) : M Image :=
  try_catch
    (bucket <- getBucket ;;
     now <- Date_now ;;
     let fileName := fileName_of now (originalname file) in
     blob_save bucket fileName
               (mkBlob (buffer file) (mimetype file) cacheControl) ;;;
     let publicUrl := publicUrl_of bucket fileName in
     savedImage <- image_create (originalname file) publicUrl ;;
     ret savedImage)
    (fun _ =>
       console_error "Error uploading image:" ;;;
       throw (mkError "Failed to upload image")).

Definition getAllImages : M (list Image) :=
  try_catch
    image_findMany_desc
    (fun _ =>
       console_error "Error fetching images:" ;;;
       throw (mkError "Failed to fetch images")).

Definition getImageById (i : Z) : M (option Image) :=
  try_catch
    (image_findUnique i)
    (fun _ =>
       console_error "Error fetching image:" ;;;
       throw (mkError "Failed to fetch image")).

Definition deleteImage (i : Z) : M unit :=
  try_catch
    (bucket <- getBucket ;;
     image <- image_findUnique i ;;
     match image with
     | None => throw (mkError "Image not found")
     | Some img =>
         match fileName_from_url (image_url img) with
         | None | Some EmptyString => ret tt
         | Some fileName => blob_delete bucket fileName
         end ;;;
         image_delete i ;;;
         ret tt
     end)
    (fun _ =>
       console_error "Error deleting image:" ;;;
       throw (mkError "Failed to delete image")).

End ImageService.

(** ** [parseInt]

    The global [parseInt(string)] with no radix: leading white space is
    skipped, one sign is read, a [0x]/[0X] prefix selects radix 16, and the
    longest run of digits is converted; no digit at all gives [NaN], here
    [None], so that [isNaN(id)] is the test for [None].  Characters are the
    code units below 256.  The value is kept as
    an exact integer (a JavaScript number is exact up to 2^53). *)

Definition is_StrWhiteSpaceChar (c : ascii) : bool :=
  let n := Z.of_N (N_of_ascii c) in
  (n =? 9) || (n =? 10) || (n =? 11) || (n =? 12) || (n =? 13)
  || (n =? 32) || (n =? 160).

Fixpoint trimStart (s : string) : string :=
  match s with
  | EmptyString => EmptyString
  | String c s' => if is_StrWhiteSpaceChar c then trimStart s' else s
  end.

Definition digit_value (c : ascii) : option Z :=
  let n := Z.of_N (N_of_ascii c) in
  if (48 <=? n) && (n <=? 57) then Some (n - 48)
  else if (97 <=? n) && (n <=? 122) then Some (n - 87)
  else if (65 <=? n) && (n <=? 90) then Some (n - 55)
  else None.

(** The longest prefix of radix-[R] digits, folded into its value; [acc] is
    [None] until a first digit has been read. *)
Fixpoint parse_digits (R : Z) (acc : option Z) (s : string) : option Z :=
  match s with
  | EmptyString => acc
  | String c s' =>
      match digit_value c with
      | Some d =>
          if d <? R then parse_digits R (Some (default 0 acc * R + d)) s'
          else acc
      | None => acc
      end
  end.

Definition parseInt (input : string) : option Z :=
  let s := trimStart input in
  let '(sign, s) :=
    match s with
    | String "-" r => (-1, r)
    | String "+" r => (1, r)
    | _ => (1, s)
    end in
  let '(R, s) :=
    match s with
    | String "0" (String "x" r) | String "0" (String "X" r) => (16, r)
    | _ => (10, s)
    end in
  Z.mul sign <$> parse_digits R None s.






(** ** The controller ([src/controllers/imageController.ts]) *)

Record Request := mkRequest {
  params_id : string;         (* req.params.id *)
  req_file : option File      (* req.file *)
}.

(** The JSON bodies the controller sends. *)
Inductive Body :=
| ErrorOnly (error : string)
| ErrorMessage (error : string) (msg : string)
| UploadBody (msg : string) (image : Image)
| ImagesBody (images : list Image)
| ImageBody (image : Image)
| MessageBody (msg : string).

Record Response := mkResponse { status : Z; json : Body }.

Module ImageController.

Definition uploadImage (req : Request) : M Response :=
  try_catch
    (match req_file req with
     | None => ret (mkResponse 400 (ErrorOnly "No file uploaded"))
     | Some file =>
         result <- ImageService.uploadImage file ;;
         ret (mkResponse 201 (UploadBody "Upload successful" result))
     end)
    (fun error =>
       console_error "Upload error:" ;;;
       ret (mkResponse 500 (ErrorMessage "Upload failed" (message error)))).

Definition getAllImages (_req : Request) : M Response :=
  try_catch
    (images <- ImageService.getAllImages ;;
     ret (mkResponse 200 (ImagesBody images)))
    (fun error =>
       console_error "Fetch error:" ;;;
       ret (mkResponse 500 (ErrorMessage "Failed to fetch images" (message error)))).

Definition getImageById (req : Request) : M Response :=
  try_catch
    (let id := parseInt (params_id req) in
     match id with
     | None => ret (mkResponse 400 (ErrorOnly "Invalid image ID"))
     | Some id =>
         image <- ImageService.getImageById id ;;
         match image with
         | None => ret (mkResponse 404 (ErrorOnly "Image not found"))
         | Some image => ret (mkResponse 200 (ImageBody image))
         end
     end)
    (fun error =>
       console_error "Fetch error:" ;;;
       ret (mkResponse 500 (ErrorMessage "Failed to fetch image" (message error)))).

Definition deleteImage (req : Request) : M Response :=
  try_catch
    (let id := parseInt (params_id req) in
     match id with
     | None => ret (mkResponse 400 (ErrorOnly "Invalid image ID"))
     | Some id =>
         ImageService.deleteImage id ;;;
         ret (mkResponse 200 (MessageBody "Image deleted successfully"))
     end)
    (fun error =>
       console_error "Delete error:" ;;;
       ret (mkResponse 500 (ErrorMessage "Failed to delete image" (message error)))).

End ImageController.

(** ** The four operations, uniformly *)

Inductive Op :=
| OpUpload (file : File)
| OpGetAll
| OpGetById (i : Z)
| OpDelete (i : Z).

Inductive Value :=
| VImage (r : Image)
| VImages (l : list Image)
| VLookup (o : option Image)
| VUnit.

Definition run_op (op : Op) : M Value :=
  match op with
  | OpUpload file => r <- ImageService.uploadImage file ;; ret (VImage r)
  | OpGetAll => l <- ImageService.getAllImages ;; ret (VImages l)
  | OpGetById i => o <- ImageService.getImageById i ;; ret (VLookup o)
  | OpDelete i => ImageService.deleteImage i ;;; ret VUnit
  end.

(** The message each operation's [catch] block re-throws. *)
Definition generic_failure (op : Op) : Error :=
  match op with
  | OpUpload _ => mkError "Failed to upload image"
  | OpGetAll => mkError "Failed to fetch images"
  | OpGetById _ => mkError "Failed to fetch image"
  | OpDelete _ => mkError "Failed to delete image"
  end.

(** The bucket [getBucket] resolves to: [!bucketName] rejects both an
    unset variable and the empty string. *)
Definition bucket_of (w : World) : option string :=
  match env w !! "GCS_BUCKET_NAME" with
  | Some (String c s) => Some (String c s)
  | _ => None
  end.

(** Module initialisation: [new Storage({ projectId, keyFilename })] reads
    two variables, and the server reads [PORT]; the bucket name is not
    looked at. *)
Record Startup := mkStartup {
  projectId : option string;
  keyFilename : option string;
  port : string
}.

Definition startup (e : gmap string string) : Result Startup :=
  Ok (mkStartup (e !! "GOOGLE_CLOUD_PROJECT")
                (e !! "GOOGLE_APPLICATION_CREDENTIALS")
                (match e !! "PORT" with
                 | Some (String c s) => String c s
                 | _ => "5000"
                 end)).

(** Strictly newest-first: every record is strictly newer than all that
    follow it. *)
Definition strictly_newer (a b : Image) : Prop :=
  image_createdAt b < image_createdAt a.

(** Creation times strictly increase along the table: each row was
    inserted at a later reading of the store's clock than the one before. *)
Definition inserted_earlier (a b : Image) : Prop :=
  image_createdAt a < image_createdAt b.

(** The blob-deletion step of delete fails: the store reports an error, or
    there is no object under that key. *)
Definition blob_delete_fails (w : World) (bucket key : string) : Prop :=
  is_Some (faults w (BlobDelete bucket key))
  \/ objects w !! (bucket, key) = None.

(** The [blob.save] call upload makes in world [w]. *)
Definition upload_save_call (w : World) (bucket : string) (file : File) : Call :=
  BlobSave bucket (fileName_of (clock w) (originalname file))
           (mkBlob (buffer file) (mimetype file) cacheControl).

(** The [prisma.image.create] call upload makes in world [w]. *)
Definition upload_create_call (w : World) (bucket : string) (file : File) : Call :=
  ImageCreate (originalname file)
              (publicUrl_of bucket (fileName_of (clock w) (originalname file))).

(** ** The router ([routes/imageRoutes.ts]) and the error middleware *)

(** [s.startsWith(type)] *)
Definition startsWith (s type : string) : bool := String.prefix type s.

Definition allowedMimeTypes : list string := ["image/"; "application/pdf"].

(** The [fileFilter] given to multer: [cb(new Error(..))] is [Throw],
    [cb(null, true)] is [Ok true]. *)
Definition fileFilter (file : File) : Result bool :=
  let isAllowed :=
    existsb (fun type => startsWith (mimetype file) type) allowedMimeTypes in
  if negb isAllowed
  then Throw (mkError "Only image and PDF files are allowed")
  else Ok true.

(** What multer finds under the form field ['image']: no part at all, or a
    file part together with multer's own verdict on [limits.fileSize]
    (5 * 1024 * 1024 bytes). *)
Inductive Incoming :=
| NoPart
| FilePart (file : File) (tooLarge : bool).

(** [upload.single('image')]: the filter is asked when the part's header
    has been read, the size limit is enforced while its body is read; an
    error of either ends the request through [next(err)]. *)
Definition upload_single (inc : Incoming) : Result (option File) :=
  match inc with
  | NoPart => Ok None
  | FilePart file tooLarge =>
      match fileFilter file with
      | Throw err => Throw err
      | Ok _ =>
          if tooLarge then Throw (mkError "File too large")
          else Ok (Some file)
      end
  end.

(** The error-handling middleware of the application ([app.use((err, ...))]). *)
Definition errorHandler (err : Error) : M Response :=
  console_error "Error:" ;;;
  ret (mkResponse 500 (ErrorMessage "Internal server error" (message err))).

(** The four routes mounted under [/api]. *)
Inductive Route :=
| PostUpload (inc : Incoming)
| GetImages
| GetImage (id : string)
| DeleteImage (id : string).

Definition handle (r : Route) : M Response :=
  match r with
  | PostUpload inc =>
      match upload_single inc with
      | Throw err => errorHandler err
      | Ok file => ImageController.uploadImage (mkRequest "" file)
      end
  | GetImages => ImageController.getAllImages (mkRequest "" None)
  | GetImage id => ImageController.getImageById (mkRequest id None)
  | DeleteImage id => ImageController.deleteImage (mkRequest id None)
  end.


(** The status codes each route can answer with. *)
Definition statuses_of (r : Route) : list Z :=
  match r with
  | PostUpload _ => [201; 400; 500]
  | GetImages => [200; 500]
  | GetImage _ => [200; 400; 404; 500]
  | DeleteImage _ => [200; 400; 500]
  end.

(** The ids of the table are pairwise distinct and all below the
    autoincrement counter. *)
Definition table_ok (w : World) : Prop :=
  NoDup (image_id <$> rows w)
  /\ Forall (fun r => image_id r < next_id w) (rows w).

(** The rows left by [prisma.image.delete] for id [i]. *)
Definition without_id (i : Z) (l : list Image) : list Image :=
  List.filter (fun x => negb (image_id x =? i)) l.

(** ** Sample worlds *)

Definition no_faults : Call -> option Error := fun _ => None.

Definition sample_env : gmap string string :=
  {[ "GCS_BUCKET_NAME" := "my-app-bucket" ]}.

Definition cat_png : File := mkFile "cat.png" "image/png" [].
Definition dog_png : File := mkFile "dog.png" "image/png" [].
Definition dog_jpg : File := mkFile "dog.jpg" "image/jpeg" [].

(** A configured process with an empty bucket and an empty table. *)
Definition w_fresh : World :=
  mkWorld sample_env 1700000000000 ∅ [] 1 1700000000000 no_faults [] [].

(** The same process with the bucket name left unset. *)
Definition w_unconfigured : World :=
  mkWorld ∅ 1700000000000 ∅ [] 1 1700000000000 no_faults [] [].

Definition cat_row : Image :=
  mkImage 1 "cat.png"
          "https://storage.googleapis.com/my-app-bucket/1700000000000.png"
          1700000000000.

Definition dog_row : Image :=
  mkImage 2 "dog.jpg"
          "https://storage.googleapis.com/my-app-bucket/1700000000000.jpg"
          1700000000000.

Definition cat_blob : Blob := mkBlob [] "image/png" cacheControl.

(** One Record whose blob is present. *)
Definition w_one_record : World :=
  mkWorld sample_env 1700000005000
          {[ ("my-app-bucket", "1700000000000.png") := cat_blob ]}
          [cat_row] 2 1700000005000 no_faults [] [].

(** One Record whose blob is already gone from the bucket. *)
Definition w_blob_missing : World :=
  mkWorld sample_env 1700000005000 ∅ [cat_row] 2 1700000005000 no_faults [] [].

(** Three Records inserted in the order A, B, C, one second apart. *)
Definition row_A : Image :=
  mkImage 1 "a.png" "https://storage.googleapis.com/my-app-bucket/1700000000000.png"
          1700000000000.
Definition row_B : Image :=
  mkImage 2 "b.png" "https://storage.googleapis.com/my-app-bucket/1700000001000.png"
          1700000001000.
Definition row_C : Image :=
  mkImage 3 "c.png" "https://storage.googleapis.com/my-app-bucket/1700000002000.png"
          1700000002000.

Definition w_three_records : World :=
  mkWorld sample_env 1700000005000 ∅ [row_A; row_B; row_C] 4 1700000005000
          no_faults [] [].

(** The bucket rejects every call. *)
Definition bucket_down : Call -> option Error :=
  fun c => if is_blob_call c then Some (mkError "503 Service Unavailable")
           else None.

Definition w_bucket_down : World :=
  mkWorld sample_env 1700000005000
          {[ ("my-app-bucket", "1700000000000.png") := cat_blob ]}
          [cat_row] 2 1700000005000 bucket_down [] [].

Definition notes_txt : File := mkFile "notes.txt" "text/plain" [].

(** The metadata store rejects every write, reads still work. *)
Definition table_readonly : Call -> option Error :=
  fun c => match c with
           | ImageCreate _ _ | ImageDelete _ =>
               Some (mkError "P1001: can't reach database server")
           | _ => None
           end.

Definition w_table_readonly : World :=
  mkWorld sample_env 1700000005000
          {[ ("my-app-bucket", "1700000000000.png") := cat_blob ]}
          [cat_row] 2 1700000005000 table_readonly [] [].

(** A Record whose URL ends in a slash. *)
Definition slash_row : Image :=
  mkImage 1 "cat.png" "https://storage.googleapis.com/my-app-bucket/"
          1700000000000.

Definition w_slash_url : World :=
  mkWorld sample_env 1700000005000
          {[ ("my-app-bucket", "1700000000000.png") := cat_blob ]}
          [slash_row] 2 1700000005000 no_faults [] [].

(** ** Proof automation *)

Ltac svc_unfold :=
  cbv beta iota zeta delta
    [run_op ImageService.uploadImage ImageService.getAllImages
     ImageService.getImageById ImageService.deleteImage
     ImageController.uploadImage ImageController.getAllImages
     ImageController.getImageById ImageController.deleteImage
     getBucket bind ret throw try_catch getenv Date_now console_error
     external blob_save blob_delete image_create image_findMany_desc
     image_findUnique image_delete].

Ltac svc_reduce :=
  cbn [fst snd trace rows objects faults env clock next_id db_clock console
       log_call log_console set_rows set_objects image_url].

(** Case analysis on the next thing the environment decides: a
    configuration lookup, the fault oracle, a table or bucket lookup. *)
Ltac svc_step :=
  svc_reduce;
  match goal with
  | |- context [match env ?w !! ?k with _ => _ end] =>
      destruct (env w !! k) as [[|? ?]|] eqn:?
  | |- context [match faults ?w ?c with _ => _ end] =>
      destruct (faults w c) eqn:?
  | |- context [match find_row ?i ?l with _ => _ end] =>
      destruct (find_row i l) eqn:?
  | |- context [match fileName_from_url ?u with _ => _ end] =>
      destruct (fileName_from_url u) as [[|? ?]|] eqn:?
  | |- context [match objects ?w !! ?k with _ => _ end] =>
      destruct (objects w !! k) eqn:?
  end.

Ltac svc_cases := svc_unfold; repeat svc_step; svc_reduce.

Ltac trace_tail := rewrite <- ?app_assoc; cbn [app]; try rewrite app_nil_r.

Ltac events_inv H :=
  repeat (apply elem_of_cons in H as [H|H]; [simplify_eq|]);
  try (apply not_elem_of_nil in H; contradiction).

Ltac calls_distinct :=
  cbn [fmap list_fmap fst];
  repeat (apply NoDup_cons; split;
          [rewrite ?not_elem_of_cons; repeat split;
           try discriminate; apply not_elem_of_nil|]);
  apply NoDup_nil_2.

Ltac status_in :=
  cbn [status statuses_of];
  repeat first [apply list_elem_of_here | apply list_elem_of_further].


(** ** Basic facts *)

Lemma getBucket_run (w : World) :
  getBucket w =
  match bucket_of w with
  | Some b => (Ok b, w)
  | None =>
      (Throw (mkError "GCS_BUCKET_NAME environment variable is not set"), w)
  end.
Proof.
  unfold getBucket, bucket_of, bind, getenv, ret, throw.
  destruct (env w !! "GCS_BUCKET_NAME") as [[|c s]|]; reflexivity.
Qed.

Lemma bucket_of_nonempty (w : World) (b : string) :
  bucket_of w = Some b -> b <> "".
Proof.
  unfold bucket_of.
  destruct (env w !! "GCS_BUCKET_NAME") as [[|c s]|]; congruence.
Qed.

(** ** Strings *)

Lemma string_app_assoc (a b c : string) : (a +:+ b) +:+ c = a +:+ (b +:+ c).
Proof.
  induction a as [|x a IH]; [reflexivity|].
  change (String x ((a +:+ b) +:+ c) = String x (a +:+ (b +:+ c))).
  now rewrite IH.
Qed.

Lemma list_ascii_of_string_app (a b : string) :
  String.list_ascii_of_string (a +:+ b)
  = String.list_ascii_of_string a ++ String.list_ascii_of_string b.
Proof.
  induction a as [|x a IH]; [reflexivity|].
  change (x :: String.list_ascii_of_string (a +:+ b)
          = x :: (String.list_ascii_of_string a ++ String.list_ascii_of_string b)).
  now rewrite IH.
Qed.

Lemma string_app_inv_tail (a b e : string) : a +:+ e = b +:+ e -> a = b.
Proof.
  intros H. apply (f_equal String.list_ascii_of_string) in H.
  rewrite !list_ascii_of_string_app in H.
  apply app_inv_tail in H.
  rewrite <- (String.string_of_list_ascii_of_string a),
          <- (String.string_of_list_ascii_of_string b).
  now rewrite H.
Qed.

Lemma split_slash_no_slash (key : string) :
  has_slash key = false -> split_slash key = [key].
Proof.
  induction key as [|c key IH]; simpl; [reflexivity|].
  intros H. apply orb_false_iff in H as [Hc Hk].
  rewrite Hc, (IH Hk). reflexivity.
Qed.

(** Everything after the last slash of [prefix/key] is one segment. *)
Lemma split_slash_prefix (prefix key : string) :
  has_slash key = false ->
  exists first middle,
    split_slash (prefix +:+ String slash key) = first :: middle ++ [key].
Proof.
  intros Hk. induction prefix as [|c p (first & middle & IH)].
  - exists "", []. change ("" +:+ String slash key) with (String slash key).
    cbn [split_slash]. rewrite Ascii.eqb_refl.
    now rewrite (split_slash_no_slash _ Hk).
  - change (String c p +:+ String slash key)
      with (String c (p +:+ String slash key)).
    cbn [split_slash]. rewrite IH. destruct (Ascii.eqb c slash).
    + exists "", (first :: middle). reflexivity.
    + exists (String c first), middle. reflexivity.
Qed.

Lemma pop_snoc (first : string) (middle : list string) (key : string) :
  pop (first :: middle ++ [key]) = Some key.
Proof.
  unfold pop. change (first :: middle ++ [key]) with ((first :: middle) ++ [key]).
  apply last_snoc.
Qed.

Lemma url_key_round_trip_general (bucket key : string) :
  has_slash key = false ->
  fileName_from_url (publicUrl_of bucket key) = Some key.
Proof.
  intros Hk. unfold fileName_from_url, publicUrl_of.
  rewrite <- string_app_assoc.
  destruct (split_slash_prefix ("https://storage.googleapis.com/" +:+ bucket)
                               key Hk) as (first & middle & Hs).
  change ("/" +:+ key) with (String slash key).
  rewrite Hs. apply pop_snoc.
Qed.

(** C5. URL/key round trip: for every object key with no '/' in it, the
    last path segment of the public URL built from any bucket name and that
    key is the key itself.  [publicUrl_of] is the (total, pure) expression
    upload stores in the Record and [fileName_from_url] the expression
    delete applies to it. *)
Theorem url_key_round_trip (bucket key : string) :
  has_slash key = false ->
  fileName_from_url (publicUrl_of bucket key) = Some key.
Proof. exact (url_key_round_trip_general bucket key). Qed.

Lemma url_key_round_trip_witness :
  has_slash "1700000000000.png" = false
  /\ fileName_from_url (publicUrl_of "my-app-bucket" "1700000000000.png")
     = Some "1700000000000.png".
Proof.
  split; [reflexivity|]. apply url_key_round_trip. reflexivity.
Defined.

(** ** Key derivation *)

(** C4 (as amended). For two uploads whose files share an extension, the
    derived object keys are equal exactly when the two [Date.now()] readings
    are equal: the keys differ if the readings differ, and collide if both
    uploads read the same millisecond. *)
Theorem keys_differ_iff_clock_differs (t1 t2 : Z) (n1 n2 : string) :
  extname n1 = extname n2 ->
  (fileName_of t1 n1 = fileName_of t2 n2 <-> t1 = t2).
Proof.
  intros He. unfold fileName_of. rewrite He. split.
  - intros H. apply string_app_inv_tail in H. now apply (inj pretty) in H.
  - now intros ->.
Qed.

Lemma keys_differ_iff_clock_differs_witness :
  extname "cat.png" = extname "dog.png"
  /\ (fileName_of 1700000000000 "cat.png" = fileName_of 1700000000001 "dog.png"
      <-> 1700000000000 = 1700000000001).
Proof.
  split; [reflexivity|].
  apply keys_differ_iff_clock_differs. reflexivity.
Defined.

(** C4 as stated fails: two uploads in the same process, same extension,
    both successful, the second made before the clock moved on: both Records
    get the same object key (and the second blob replaced the first). *)
Lemma same_millisecond_uploads_collide :
  let first := ImageService.uploadImage cat_png w_fresh in
  let second := ImageService.uploadImage dog_png first.2 in
  extname (originalname cat_png) = extname (originalname dog_png)
  /\ fileName_of (clock w_fresh) (originalname cat_png)
     = fileName_of (clock first.2) (originalname dog_png)
  /\ exists a b,
       first.1 = Ok a /\ second.1 = Ok b
       /\ image_id a <> image_id b
       /\ fileName_from_url (image_url a) = Some "1700000000000.png"
       /\ fileName_from_url (image_url b) = Some "1700000000000.png".
Proof.
  vm_compute. split; [reflexivity|]. split; [reflexivity|].
  eexists _, _. repeat split; try reflexivity. discriminate.
Qed.

(** ** Keys derived by upload contain no slash *)

Lemma has_slash_app (a b : string) :
  has_slash (a +:+ b) = has_slash a || has_slash b.
Proof.
  induction a as [|c a IH]; [reflexivity|].
  change (String c a +:+ b) with (String c (a +:+ b)).
  cbn [has_slash]. now rewrite IH, orb_assoc.
Qed.

Lemma pretty_N_char_not_slash (d : N) :
  Ascii.eqb (pretty_N_char d) slash = false.
Proof. unfold pretty_N_char. repeat case_match; reflexivity. Qed.

Lemma pretty_N_go_no_slash (x : N) (s : string) :
  has_slash s = false -> has_slash (pretty_N_go x s) = false.
Proof.
  revert s. induction (N.lt_wf_0 x) as [x _ IH]; intros s Hs.
  destruct (decide (x = 0)%N) as [->|Hx]; [now rewrite pretty_N_go_0|].
  rewrite pretty_N_go_step by lia. apply IH.
  - apply N.div_lt; lia.
  - cbn [has_slash]. now rewrite pretty_N_char_not_slash, Hs.
Qed.

Lemma pretty_Z_no_slash (t : Z) : has_slash (pretty t) = false.
Proof.
  assert (HN : forall n : N, has_slash (pretty n) = false).
  { intros n. unfold pretty, pretty_N. case_decide; [reflexivity|].
    now apply pretty_N_go_no_slash. }
  destruct t as [|p|p]; unfold pretty, pretty_Z; [reflexivity|apply HN|].
  rewrite has_slash_app. unfold pretty, pretty_positive. now rewrite HN.
Qed.

Lemma substring_no_slash (s : string) (a len : nat) :
  (forall j, (a <= j < a + len)%nat -> String.get j s <> Some slash) ->
  has_slash (String.substring a len s) = false.
Proof.
  revert a len. induction s as [|c s IH]; intros a len H.
  - destruct a, len; reflexivity.
  - destruct a as [|a].
    + destruct len as [|len]; [reflexivity|].
      cbn [String.substring has_slash]. apply orb_false_iff. split.
      * destruct (Ascii.eqb_spec c slash) as [->|]; [|reflexivity].
        now destruct (H 0%nat ltac:(lia)).
      * apply IH. intros j Hj. apply (H (S j)). lia.
    + cbn [String.substring]. apply IH. intros j Hj. apply (H (S j)). lia.
Qed.

Lemma extname_scan_inv (path : string) (n : nat) (st : ExtScan) :
  scan_inv path n st ->
  exists m, scan_inv path m (extname_scan path n st).
Proof.
  revert st. induction n as [|i IH]; intros st Hst; [now exists 0%nat|].
  cbn [extname_scan].
  destruct (String.get i path) as [code|] eqn:Hget; [|now exists (S i)].
  destruct Hst as (Hm & Hd & Hr).
  destruct (Ascii.eqb_spec code slash) as [->|Hcode].
  - destruct (matchedSlash st) eqn:Hms; cbn [negb].
    + apply IH. specialize (Hm eq_refl). split; [|split].
      * intros _. exact Hm.
      * intros Hne. destruct (Hd Hne) as [Hc _]. congruence.
      * intros j Hj. lia.
    + exists (S i).
      split; [|split];
        cbn [startDot startPart scan_end matchedSlash preDotState].
      * congruence.
      * exact Hd.
      * exact Hr.
  - assert (Hi : String.get i path <> Some slash) by congruence.
    apply IH. clear IH.
    destruct (scan_end st =? -1) eqn:Hend;
      [apply Z.eqb_eq in Hend | apply Z.eqb_neq in Hend];
      destruct (Ascii.eqb code dot);
      cbn [startDot startPart scan_end matchedSlash preDotState];
      repeat match goal with
             | |- context [if ?b then _ else _] => destruct b eqn:?
             end;
      unfold scan_inv;
      cbn [startDot startPart scan_end matchedSlash preDotState];
      (split;
       [ intros Hms; first [discriminate Hms | specialize (Hm Hms); lia]
       | split;
         [ intros Hne; try (destruct (Hd Hne) as [Hc Hle]); split; lia
         | intros j Hj; destruct (decide (j = i)) as [->|Hji];
           [exact Hi | apply Hr; lia] ] ]).
Qed.

Lemma extname_no_slash (path : string) : has_slash (extname path) = false.
Proof.
  unfold extname.
  destruct (extname_scan_inv path (String.length path)
              (mkExtScan (-1) 0 (-1) true 0)) as (m & Hm & Hd & Hr).
  { split; [|split];
      cbn [startDot startPart scan_end matchedSlash preDotState];
      [reflexivity | intros H; now destruct H | intros j Hj; lia]. }
  set (st := extname_scan path (String.length path) _) in *.
  destruct (startDot st =? -1) eqn:E1; [reflexivity|].
  destruct (scan_end st =? -1) eqn:E2; [reflexivity|].
  destruct (_ || _); [reflexivity|].
  apply Z.eqb_neq in E1. destruct (Hd E1) as [_ Hle].
  apply substring_no_slash. intros j Hj. apply Hr. lia.
Qed.

Lemma fileName_of_no_slash (now : Z) (original : string) :
  has_slash (fileName_of now original) = false.
Proof.
  unfold fileName_of.
  now rewrite has_slash_app, pretty_Z_no_slash, extname_no_slash.
Qed.

(** Delete recovers from the stored URL exactly the key upload derived,
    whatever the clock reading, the client's file name and the bucket. *)
Lemma upload_key_recovered (bucket : string) (now : Z) (original : string) :
  fileName_from_url (publicUrl_of bucket (fileName_of now original))
  = Some (fileName_of now original).
Proof. apply url_key_round_trip_general, fileName_of_no_slash. Qed.

(** ** Upload *)

(** C2. If the blob write of an upload fails, the upload fails as a whole
    and no Record is created: the operation made exactly one external call,
    the failed [blob.save]; [prisma.image.create] was never invoked and the
    table and its id counter are as before. *)
Theorem upload_blob_write_failure
    (w : World) (file : File) (bucket : string) (e : Error) :
  bucket_of w = Some bucket ->
  faults w (upload_save_call w bucket file) = Some e ->
  exists w',
    ImageService.uploadImage file w
    = (Throw (mkError "Failed to upload image"), w')
    /\ rows w' = rows w
    /\ next_id w' = next_id w
    /\ trace w' = trace w ++ [(upload_save_call w bucket file, false)].
Proof.
  intros Hb Hf.
  unfold ImageService.uploadImage, try_catch, bind at 1.
  rewrite getBucket_run, Hb. svc_unfold.
  unfold upload_save_call in Hf. rewrite Hf.
  eexists. split; [reflexivity|]. simpl. auto.
Qed.

Lemma upload_blob_write_failure_witness :
  exists w',
    ImageService.uploadImage cat_png w_bucket_down
    = (Throw (mkError "Failed to upload image"), w')
    /\ rows w' = rows w_bucket_down
    /\ next_id w' = next_id w_bucket_down
    /\ trace w' = trace w_bucket_down
                  ++ [(upload_save_call w_bucket_down "my-app-bucket" cat_png,
                       false)].
Proof.
  apply (upload_blob_write_failure w_bucket_down cat_png "my-app-bucket"
           (mkError "503 Service Unavailable")); reflexivity.
Defined.

(** A successful upload stores in the Record the URL built by
    [publicUrl_of] from the key it wrote the blob under. *)
Lemma upload_success (w : World) (file : File) (bucket : string) :
  bucket_of w = Some bucket ->
  faults w (upload_save_call w bucket file) = None ->
  faults w (upload_create_call w bucket file) = None ->
  let key := fileName_of (clock w) (originalname file) in
  let r := mkImage (next_id w) (originalname file)
                   (publicUrl_of bucket key) (db_clock w) in
  exists w',
    ImageService.uploadImage file w = (Ok r, w')
    /\ rows w' = rows w ++ [r]
    /\ objects w'
       = <[(bucket, key) := mkBlob (buffer file) (mimetype file) cacheControl]>
           (objects w)
    /\ trace w' = trace w ++ [(upload_save_call w bucket file, true);
                              (upload_create_call w bucket file, true)].
Proof.
  intros Hb Hs Hc key r.
  unfold ImageService.uploadImage, try_catch, bind at 1.
  rewrite getBucket_run, Hb. svc_unfold.
  unfold upload_save_call in Hs. rewrite Hs. cbn [faults log_call set_objects].
  unfold upload_create_call in Hc. rewrite Hc.
  eexists. split; [reflexivity|]. simpl. rewrite <- app_assoc. auto.
Qed.

(** ** Delete *)

(** C1 (as amended). When the blob deletion of a delete fails (a storage
    error, or no object under the key), the operation stops there and fails
    with the generic delete failure: the metadata delete is never invoked
    and the Record is still in the table. *)
Theorem delete_blob_failure_keeps_record
    (w : World) (i : Z) (img : Image) (bucket key : string) :
  bucket_of w = Some bucket ->
  faults w (ImageFindUnique i) = None ->
  find_row i (rows w) = Some img ->
  fileName_from_url (image_url img) = Some key ->
  key <> "" ->
  blob_delete_fails w bucket key ->
  exists w',
    ImageService.deleteImage i w
    = (Throw (mkError "Failed to delete image"), w')
    /\ rows w' = rows w
    /\ find_row i (rows w') = Some img
    /\ trace w' = trace w ++ [(ImageFindUnique i, true);
                              (BlobDelete bucket key, false)].
Proof.
  intros Hb Hf Hr Hk Hne Hfail.
  unfold ImageService.deleteImage, try_catch, bind at 1.
  rewrite getBucket_run, Hb. svc_unfold. rewrite Hf, Hr.
  cbn [image_url]. rewrite Hk.
  destruct key as [|c key]; [congruence|].
  cbn [faults log_call objects].
  destruct Hfail as [[e He] | Hmiss].
  - rewrite He. eexists. split; [reflexivity|].
    simpl. rewrite <- app_assoc. auto.
  - destruct (faults w (BlobDelete bucket (String c key))) as [e|].
    + eexists. split; [reflexivity|]. simpl. rewrite <- app_assoc. auto.
    + rewrite Hmiss. eexists. split; [reflexivity|].
      simpl. rewrite <- app_assoc. auto.
Qed.

Lemma delete_blob_failure_keeps_record_witness :
  exists w',
    ImageService.deleteImage 1 w_blob_missing
    = (Throw (mkError "Failed to delete image"), w')
    /\ rows w' = rows w_blob_missing
    /\ find_row 1 (rows w') = Some cat_row
    /\ trace w' = trace w_blob_missing
                  ++ [(ImageFindUnique 1, true);
                      (BlobDelete "my-app-bucket" "1700000000000.png", false)].
Proof.
  apply (delete_blob_failure_keeps_record w_blob_missing 1 cat_row
           "my-app-bucket" "1700000000000.png");
    try reflexivity; [discriminate | right; reflexivity].
Defined.

(** C1 as stated fails: the Record exists, its blob is missing so the blob
    deletion fails, and after the delete operation the Record is still
    there; no metadata delete was attempted. *)
Lemma delete_past_blob_failure_counterexample :
  find_row 1 (rows w_blob_missing) = Some cat_row
  /\ blob_delete_fails w_blob_missing "my-app-bucket" "1700000000000.png"
  /\ find_row 1 (rows (ImageService.deleteImage 1 w_blob_missing).2) <> None
  /\ ~ (exists ok,
          (ImageDelete 1, ok) ∈ trace (ImageService.deleteImage 1 w_blob_missing).2).
Proof.
  split; [reflexivity|]. split; [right; reflexivity|]. split.
  - vm_compute. discriminate.
  - intros [ok Hin].
    remember (trace (ImageService.deleteImage 1 w_blob_missing).2) as t eqn:Ht.
    vm_compute in Ht. subst t.
    apply elem_of_cons in Hin as [Hin|Hin]; [discriminate|].
    apply elem_of_cons in Hin as [Hin|Hin]; [discriminate|].
    now apply not_elem_of_nil in Hin.
Qed.

(** Deleting an id with no Record: one lookup, no blob operation, and the
    generic delete failure. *)
Lemma delete_missing_record (w : World) (i : Z) (bucket : string) :
  bucket_of w = Some bucket ->
  faults w (ImageFindUnique i) = None ->
  find_row i (rows w) = None ->
  exists w',
    ImageService.deleteImage i w
    = (Throw (mkError "Failed to delete image"), w')
    /\ rows w' = rows w
    /\ objects w' = objects w
    /\ trace w' = trace w ++ [(ImageFindUnique i, true)].
Proof.
  intros Hb Hf Hr.
  unfold ImageService.deleteImage, try_catch, bind at 1.
  rewrite getBucket_run, Hb. svc_unfold. rewrite Hf, Hr.
  eexists. split; [reflexivity|]. simpl. auto.
Qed.

(** C3. DELETE of an id with no Record makes no blob-store call, but the
    caller cannot tell it from any other failure: the service's own
    ['Image not found'] error is replaced by the generic one, so the
    response is the same 500 as when the bucket is down, whereas GET on the
    same id answers 404 ['Image not found']. *)
Theorem delete_missing_id_not_distinguishable :
  let gone := ImageController.deleteImage (mkRequest "99" None) w_one_record in
  let down := ImageController.deleteImage (mkRequest "1" None) w_bucket_down in
  let get := ImageController.getImageById (mkRequest "99" None) w_one_record in
  find_row 99 (rows w_one_record) = None
  /\ gone.1 = Ok (mkResponse 500 (ErrorMessage "Failed to delete image"
                                               "Failed to delete image"))
  /\ gone.1 = down.1
  /\ trace gone.2 = [(ImageFindUnique 99, true)]
  /\ get.1 = Ok (mkResponse 404 (ErrorOnly "Image not found")).
Proof. vm_compute. repeat split; reflexivity. Qed.

(** ** Configuration *)

(** C7. With the bucket name absent from the environment, every upload and
    every delete fails in [getBucket], before any external call: nothing is
    added to the trace and neither the bucket nor the table changes.  The
    two reads never consult the bucket name and succeed whenever the
    metadata store answers.  Start-up does not look at the bucket name
    either: it succeeds, with the same result whatever that variable holds. *)
Theorem missing_bucket_name (w : World) :
  env w !! "GCS_BUCKET_NAME" = None ->
  (forall file, exists w',
      ImageService.uploadImage file w
      = (Throw (mkError "Failed to upload image"), w')
      /\ trace w' = trace w /\ objects w' = objects w /\ rows w' = rows w)
  /\ (forall i, exists w',
      ImageService.deleteImage i w
      = (Throw (mkError "Failed to delete image"), w')
      /\ trace w' = trace w /\ objects w' = objects w /\ rows w' = rows w)
  /\ (faults w ImageFindMany = None ->
      exists l w', ImageService.getAllImages w = (Ok l, w'))
  /\ (forall i, faults w (ImageFindUnique i) = None ->
      exists w', ImageService.getImageById i w = (Ok (find_row i (rows w)), w'))
  /\ (exists s, startup (env w) = Ok s
                /\ forall b, startup (<["GCS_BUCKET_NAME" := b]> (env w)) = Ok s).
Proof.
  intros Henv.
  assert (Hb : bucket_of w = None) by (unfold bucket_of; now rewrite Henv).
  repeat split.
  - intros file. unfold ImageService.uploadImage, try_catch, bind at 1.
    rewrite getBucket_run, Hb. svc_unfold. eexists. split; [reflexivity|].
    simpl. auto.
  - intros i. unfold ImageService.deleteImage, try_catch, bind at 1.
    rewrite getBucket_run, Hb. svc_unfold. eexists. split; [reflexivity|].
    simpl. auto.
  - intros Hf. svc_unfold. rewrite Hf. eexists _, _. reflexivity.
  - intros i Hf. svc_unfold. rewrite Hf. eexists. reflexivity.
  - eexists. split; [reflexivity|]. intros b. unfold startup.
    rewrite !lookup_insert_ne by discriminate. reflexivity.
Qed.

Lemma missing_bucket_name_witness :
  (forall file, exists w',
      ImageService.uploadImage file w_unconfigured
      = (Throw (mkError "Failed to upload image"), w')
      /\ trace w' = trace w_unconfigured
      /\ objects w' = objects w_unconfigured
      /\ rows w' = rows w_unconfigured)
  /\ (forall i, exists w',
      ImageService.deleteImage i w_unconfigured
      = (Throw (mkError "Failed to delete image"), w')
      /\ trace w' = trace w_unconfigured
      /\ objects w' = objects w_unconfigured
      /\ rows w' = rows w_unconfigured)
  /\ (faults w_unconfigured ImageFindMany = None ->
      exists l w', ImageService.getAllImages w_unconfigured = (Ok l, w'))
  /\ (forall i, faults w_unconfigured (ImageFindUnique i) = None ->
      exists w', ImageService.getImageById i w_unconfigured
                 = (Ok (find_row i (rows w_unconfigured)), w'))
  /\ (exists s, startup (env w_unconfigured) = Ok s
                /\ forall b, startup (<["GCS_BUCKET_NAME" := b]>
                                        (env w_unconfigured)) = Ok s).
Proof. apply (missing_bucket_name w_unconfigured). reflexivity. Defined.

(** The empty string is rejected by [!bucketName] just like an unset
    variable. *)
Lemma empty_bucket_name_rejected (w : World) :
  env w !! "GCS_BUCKET_NAME" = Some "" -> bucket_of w = None.
Proof. intros H. unfold bucket_of. now rewrite H. Qed.

(** ** Listing *)

#[local] Instance newer_first_trans : Transitive newer_first.
Proof. intros a b c. unfold newer_first. lia. Qed.

#[local] Instance newer_first_total : Total newer_first.
Proof. intros a b. unfold newer_first. lia. Qed.

Lemma newest_first_distinct_strict (l : list Image) :
  StronglySorted newer_first l ->
  NoDup (image_createdAt <$> l) ->
  StronglySorted strictly_newer l.
Proof.
  induction 1 as [|x l Hs IH Hx]; intros Hnd; [constructor|].
  rewrite fmap_cons in Hnd. apply NoDup_cons in Hnd as [Hnot Hnd].
  constructor; [auto|].
  rewrite Forall_forall in Hx |- *. intros y Hy.
  specialize (Hx y Hy). unfold newer_first in Hx. unfold strictly_newer.
  assert (image_createdAt y <> image_createdAt x).
  { intros Heq. apply Hnot. rewrite <- Heq. now apply list_elem_of_fmap_2. }
  lia.
Qed.

Lemma inserted_earlier_distinct (l : list Image) :
  StronglySorted inserted_earlier l -> NoDup (image_createdAt <$> l).
Proof.
  induction 1 as [|x l Hs IH Hx]; [constructor|].
  rewrite fmap_cons. apply NoDup_cons. split; [|exact IH].
  intros Hin. apply list_elem_of_fmap in Hin as (y & Heq & Hy).
  rewrite Forall_forall in Hx. specialize (Hx y Hy).
  unfold inserted_earlier in Hx. lia.
Qed.

Lemma inserted_earlier_reverse (l : list Image) :
  StronglySorted inserted_earlier l -> StronglySorted strictly_newer (reverse l).
Proof.
  induction 1 as [|x l Hs IH Hx]; [constructor|].
  rewrite reverse_cons. apply StronglySorted_app_2; [|exact IH|repeat constructor].
  intros a b Ha Hb. apply list_elem_of_singleton in Hb as ->.
  rewrite elem_of_reverse in Ha. rewrite Forall_forall in Hx.
  exact (Hx a Ha).
Qed.

Lemma getAll_perm_helper (w : World) :
  faults w ImageFindMany = None ->
  exists l, (ImageService.getAllImages w).1 = Ok l /\ l ≡ₚ rows w.
Proof.
  intros Hf. svc_unfold. rewrite Hf. eexists. split; [reflexivity|].
  apply merge_sort_Permutation.
Qed.

(** C6 (as amended). When the metadata store answers, [getAllImages]
    returns every stored Record exactly once, with no createdAt smaller than
    one that follows it; the order is strictly descending when the creation
    times are pairwise distinct, and when the rows were inserted at strictly
    increasing times the result is the table reversed (A, B, C yields
    [C, B, A]). *)
Theorem getAll_newest_first (w : World) :
  faults w ImageFindMany = None ->
  exists l w',
    ImageService.getAllImages w = (Ok l, w')
    /\ rows w' = rows w
    /\ l ≡ₚ rows w
    /\ StronglySorted newer_first l
    /\ (NoDup (image_createdAt <$> rows w) -> StronglySorted strictly_newer l)
    /\ (StronglySorted inserted_earlier (rows w) -> l = reverse (rows w)).
Proof.
  intros Hf. svc_unfold. rewrite Hf.
  eexists _, _. split; [reflexivity|].
  pose proof (merge_sort_Permutation newer_first (rows w)) as Hperm.
  pose proof (StronglySorted_merge_sort newer_first (rows w)) as Hsorted.
  assert (Hstrict : NoDup (image_createdAt <$> rows w) ->
                    StronglySorted strictly_newer (merge_sort newer_first (rows w))).
  { intros Hnd. apply newest_first_distinct_strict; [exact Hsorted|].
    now rewrite Hperm. }
  split; [reflexivity|]. split; [exact Hperm|]. split; [exact Hsorted|].
  split; [exact Hstrict|].
  intros Hins.
  apply (StronglySorted_unique_strong strictly_newer).
  - unfold strictly_newer. intros; lia.
  - apply Hstrict, inserted_earlier_distinct, Hins.
  - apply inserted_earlier_reverse, Hins.
  - now rewrite Hperm, reverse_Permutation.
Qed.

Lemma getAll_newest_first_witness :
  (ImageService.getAllImages w_three_records).1 = Ok [row_C; row_B; row_A].
Proof.
  destruct (getAll_newest_first w_three_records eq_refl)
    as (l & w' & Hrun & _ & _ & _ & _ & Hrev).
  rewrite Hrun. cbn [fst]. f_equal. apply Hrev.
  cbn [rows w_three_records].
  repeat first
    [ apply SSorted_cons | apply SSorted_nil
    | apply List.Forall_cons | apply List.Forall_nil
    | unfold inserted_earlier;
      cbn [image_createdAt row_A row_B row_C]; lia ].
Defined.

(** C6 as stated fails: two Records inserted while the store's clock reads
    the same instant have equal createdAt, so no ordering of the table, and
    in particular not the one [getAllImages] returns, is strictly
    descending. *)
Lemma getAll_strictly_descending_counterexample :
  let w2 := (ImageService.uploadImage dog_jpg
               (ImageService.uploadImage cat_png w_fresh).2).2 in
  rows w2 = [cat_row; dog_row]
  /\ (forall l, l ≡ₚ rows w2 -> ~ StronglySorted strictly_newer l)
  /\ exists l, (ImageService.getAllImages w2).1 = Ok l
               /\ l ≡ₚ rows w2
               /\ ~ StronglySorted strictly_newer l.
Proof.
  assert (Hrows : rows (ImageService.uploadImage dog_jpg
                          (ImageService.uploadImage cat_png w_fresh).2).2
                  = [cat_row; dog_row]) by (vm_compute; reflexivity).
  assert (Hno : forall l, l ≡ₚ [cat_row; dog_row] ->
                          ~ StronglySorted strictly_newer l).
  { intros l Hp Hs.
    assert (Hl : length l = 2%nat) by now rewrite Hp.
    destruct l as [|a [|b [|c l]]]; try discriminate Hl.
    apply StronglySorted_cons in Hs as [Hab _].
    apply Forall_cons in Hab as [Hab _]. unfold strictly_newer in Hab.
    assert (Ha : a ∈ [cat_row; dog_row]) by (rewrite <- Hp; left).
    assert (Hb : b ∈ [cat_row; dog_row]) by (rewrite <- Hp; right; left).
    assert (forall x, x ∈ [cat_row; dog_row] -> image_createdAt x = 1700000000000).
    { intros x Hx. apply elem_of_cons in Hx as [->|Hx]; [reflexivity|].
      apply list_elem_of_singleton in Hx as ->. reflexivity. }
    rewrite (H a Ha), (H b Hb) in Hab. lia. }
  cbv zeta. rewrite Hrows. split; [reflexivity|]. split; [exact Hno|].
  destruct (getAll_perm_helper
              (ImageService.uploadImage dog_jpg
                 (ImageService.uploadImage cat_png w_fresh).2).2)
    as (l & Hrun & Hp); [vm_compute; reflexivity|].
  exists l. rewrite Hrows in Hp. auto.
Qed.

(** ** All four operations *)

(** C8. In each of the four operations, every external call is attempted
    at most once; as soon as one fails nothing further is attempted and the
    operation ends by throwing its generic failure; and whatever the
    operation throws is that generic failure. *)
Theorem external_failures_resignalled (op : Op) (w : World) :
  exists evs,
    trace (run_op op w).2 = trace w ++ evs
    /\ NoDup evs.*1
    /\ (forall c, (c, false) ∈ evs ->
          (run_op op w).1 = Throw (generic_failure op)
          /\ last evs = Some (c, false))
    /\ (forall e, (run_op op w).1 = Throw e -> e = generic_failure op).
Proof.
  destruct op; svc_cases; trace_tail;
    (eexists; split; [try reflexivity; symmetry; apply app_nil_r|]);
    (split; [calls_distinct|]);
    (split; [intros c Hin; events_inv Hin; split; reflexivity
            |intros e' He'; simplify_eq; reflexivity]).
Qed.

Lemma external_failures_resignalled_witness :
  (run_op (OpUpload cat_png) w_bucket_down).1
  = Throw (generic_failure (OpUpload cat_png)).
Proof.
  destruct (external_failures_resignalled (OpUpload cat_png) w_bucket_down)
    as (evs & Htr & _ & Hfail & _).
  apply (Hfail (upload_save_call w_bucket_down "my-app-bucket" cat_png)).
  change (trace w_bucket_down ++ evs) with evs in Htr.
  rewrite <- Htr. vm_compute. left.
Defined.

(** The rows after an operation: untouched, or one appended by a
    successful upload, or those with the given id removed by a successful
    delete. *)
Lemma rows_after_op (op : Op) (w : World) :
  rows (run_op op w).2 = rows w
  \/ (exists file img,
        op = OpUpload file /\ (run_op op w).1 = Ok (VImage img)
        /\ rows (run_op op w).2 = rows w ++ [img])
  \/ (exists i,
        op = OpDelete i /\ (run_op op w).1 = Ok VUnit
        /\ rows (run_op op w).2
           = List.filter (fun x => negb (image_id x =? i)) (rows w)).
Proof.
  destruct op; svc_cases; try (left; reflexivity).
  - right; left. eexists _, _. repeat split; reflexivity.
  - right; right. eexists. repeat split; reflexivity.
  - right; right. eexists. repeat split; reflexivity.
  - right; right. eexists. repeat split; reflexivity.
Qed.

(** C9. No operation changes an existing Record.  After any operation the
    table is the old one, or the old one with the Record a successful
    upload returned appended, or the old one without the rows of the id a
    successful delete was given.  So every Record present before is still
    present with the same id, name, url and createdAt unless the operation
    was the delete of its id, and every Record present after was present
    before unless it is the one a successful upload created. *)
Theorem records_never_mutated (op : Op) (w : World) :
  (rows (run_op op w).2 = rows w
   \/ (exists file img,
         op = OpUpload file /\ (run_op op w).1 = Ok (VImage img)
         /\ rows (run_op op w).2 = rows w ++ [img])
   \/ (exists i,
         op = OpDelete i /\ (run_op op w).1 = Ok VUnit
         /\ rows (run_op op w).2
            = List.filter (fun x => negb (image_id x =? i)) (rows w)))
  /\ (forall x, x ∈ rows w ->
        x ∈ rows (run_op op w).2 \/ op = OpDelete (image_id x))
  /\ (forall x, x ∈ rows (run_op op w).2 ->
        x ∈ rows w
        \/ exists file, op = OpUpload file /\ (run_op op w).1 = Ok (VImage x)).
Proof.
  pose proof (rows_after_op op w) as Hrows. split; [exact Hrows|].
  destruct Hrows as [Heq | [(file & img & Hop & Hres & Heq) | (i & Hop & Hres & Heq)]];
    rewrite Heq; split; intros x Hx.
  - now left.
  - now left.
  - left. apply elem_of_app. now left.
  - apply elem_of_app in Hx as [Hx|Hx]; [now left|].
    apply list_elem_of_singleton in Hx as ->. right. eauto.
  - destruct (Z.eq_dec (image_id x) i) as [<-|Hne]; [now right|].
    left. apply list_elem_of_In, filter_In. split; [now apply list_elem_of_In|].
    apply negb_true_iff, Z.eqb_neq, Hne.
  - left. apply list_elem_of_In in Hx. apply filter_In in Hx as [Hx _].
    now apply list_elem_of_In.
Qed.

Lemma records_never_mutated_witness :
  cat_row ∈ rows (run_op (OpUpload dog_jpg) w_one_record).2.
Proof.
  destruct (records_never_mutated (OpUpload dog_jpg) w_one_record)
    as (_ & Hkeep & _).
  destruct (Hkeep cat_row) as [Hin|Hop]; [left | exact Hin | discriminate Hop].
Defined.

(** ** The id path parameter *)








Lemma getImageById_accepts (req : Request) (w : World) (n : Z) :
  parseInt (params_id req) = Some n ->
  (forall b, (ImageController.getImageById req w).1 <> Ok (mkResponse 400 b))
  /\ exists ok,
       trace (ImageController.getImageById req w).2
       = trace w ++ [(ImageFindUnique n, ok)].
Proof.
  intros Hn. unfold ImageController.getImageById, try_catch at 1.
  rewrite Hn. svc_cases; (split; [intros bd; discriminate | eexists; reflexivity]).
Qed.

Lemma deleteImage_accepts (req : Request) (w : World) (n : Z) :
  parseInt (params_id req) = Some n ->
  (forall b, (ImageController.deleteImage req w).1 <> Ok (mkResponse 400 b))
  /\ (is_Some (bucket_of w) ->
      exists ok evs,
        trace (ImageController.deleteImage req w).2
        = trace w ++ (ImageFindUnique n, ok) :: evs).
Proof.
  intros Hn. unfold ImageController.deleteImage, try_catch at 1.
  rewrite Hn. unfold bucket_of.
  svc_cases; trace_tail;
    (split; [intros bd; discriminate
            |intros [bk Hbk]; try discriminate Hbk;
             try (eexists _, _; reflexivity)]).
Qed.

(** C10. On GET-by-id and DELETE-by-id the answer is 400 exactly when
    [parseInt] finds no integer at the start of the id parameter.  When it
    finds one, the rest of the string is ignored and that integer is the id
    the metadata store is asked for; ["7abc"] is id 7 and ["3.9"] is id 3. *)
Theorem id_parameter_leniency (req : Request) (w : World) :
  ((exists b, (ImageController.getImageById req w).1 = Ok (mkResponse 400 b))
   <-> parseInt (params_id req) = None)
  /\ ((exists b, (ImageController.deleteImage req w).1 = Ok (mkResponse 400 b))
      <-> parseInt (params_id req) = None)
  /\ (forall n, parseInt (params_id req) = Some n ->
        (exists ok,
           trace (ImageController.getImageById req w).2
           = trace w ++ [(ImageFindUnique n, ok)])
        /\ (is_Some (bucket_of w) ->
            exists ok evs,
              trace (ImageController.deleteImage req w).2
              = trace w ++ (ImageFindUnique n, ok) :: evs))
  /\ parseInt "7abc" = Some 7
  /\ parseInt "3.9" = Some 3
  /\ parseInt "abc" = None.
Proof.
  split; [|split; [|split]].
  - split.
    + intros [b Hb]. destruct (parseInt (params_id req)) as [n|] eqn:Hn; [|reflexivity].
      destruct (getImageById_accepts req w n Hn) as [Hno _]. now destruct (Hno b).
    + intros Hn. unfold ImageController.getImageById, try_catch at 1.
      rewrite Hn. eexists. reflexivity.
  - split.
    + intros [b Hb]. destruct (parseInt (params_id req)) as [n|] eqn:Hn; [|reflexivity].
      destruct (deleteImage_accepts req w n Hn) as [Hno _]. now destruct (Hno b).
    + intros Hn. unfold ImageController.deleteImage, try_catch at 1.
      rewrite Hn. eexists. reflexivity.
  - intros n Hn. split.
    + apply (getImageById_accepts req w n Hn).
    + apply (deleteImage_accepts req w n Hn).
  - repeat split; reflexivity.
Qed.

Lemma id_parameter_leniency_witness :
  parseInt (params_id (mkRequest "7abc" None)) = Some 7
  /\ (exists ok,
        trace (ImageController.getImageById (mkRequest "7abc" None) w_one_record).2
        = trace w_one_record ++ [(ImageFindUnique 7, ok)])
  /\ (is_Some (bucket_of w_one_record) ->
      exists ok evs,
        trace (ImageController.deleteImage (mkRequest "7abc" None) w_one_record).2
        = trace w_one_record ++ (ImageFindUnique 7, ok) :: evs).
Proof.
  split; [reflexivity|].
  apply (id_parameter_leniency (mkRequest "7abc" None) w_one_record).
  reflexivity.
Defined.

(** ** The upload route: file filter and multer errors *)

Lemma prefix_iff (p s : string) :
  String.prefix p s = true <-> exists rest, s = p +:+ rest.
Proof.
  revert s. induction p as [|c p IH]; intros s.
  - split; [intros _; now exists s|]. intros _. now destruct s.
  - destruct s as [|d s]; cbn [String.prefix].
    + split; [discriminate|]. intros [rest H]. discriminate H.
    + destruct (ascii_dec c d) as [->|Hne].
      * rewrite IH. split; intros [rest H]; exists rest.
        -- now rewrite H.
        -- change (String d p +:+ rest) with (String d (p +:+ rest)) in H.
           congruence.
      * split; [discriminate|]. intros [rest H].
        change (String c p +:+ rest) with (String c (p +:+ rest)) in H.
        congruence.
Qed.

(** X1. The file filter lets a part through exactly when its declared MIME
    type begins with ['image/'] or with ['application/pdf'] (a prefix test,
    so anything that merely starts with ['application/pdf'] passes too);
    every other type is refused with the fixed error. *)
Theorem fileFilter_accepts_iff_prefix (file : File) :
  (fileFilter file = Ok true <->
     (exists rest, mimetype file = "image/" +:+ rest)
     \/ (exists rest, mimetype file = "application/pdf" +:+ rest))
  /\ (fileFilter file = Ok true
      \/ fileFilter file = Throw (mkError "Only image and PDF files are allowed")).
Proof.
  unfold fileFilter, allowedMimeTypes, startsWith. cbn [existsb].
  rewrite orb_false_r.
  pose proof (prefix_iff "image/" (mimetype file)) as H1.
  pose proof (prefix_iff "application/pdf" (mimetype file)) as H2.
  destruct (String.prefix "image/" (mimetype file)).
  - cbn [orb negb]. split; [|now left]. split; [|reflexivity].
    intros _. left. now apply H1.
  - destruct (String.prefix "application/pdf" (mimetype file)); cbn [orb negb].
    + split; [|now left]. split; [|reflexivity].
      intros _. right. now apply H2.
    + split; [|now right]. split; [discriminate|].
      intros [H|H]; [apply H1 in H | apply H2 in H]; discriminate H.
Qed.

(** X2. An upload request is answered without any external call, and with
    the bucket and the table untouched, whenever multer does not hand a file
    to the controller: no file part gives 400 ['No file uploaded']; a part
    the filter refuses gives 500 ['Internal server error'] with the filter's
    message (not a 400); an accepted part over the size limit gives 500 with
    ['File too large']. *)
Theorem upload_rejected_before_storage (inc : Incoming) (w : World) :
  (forall file, upload_single inc <> Ok (Some file)) ->
  exists resp w',
    handle (PostUpload inc) w = (Ok resp, w')
    /\ trace w' = trace w /\ objects w' = objects w /\ rows w' = rows w
    /\ match inc with
       | NoPart => resp = mkResponse 400 (ErrorOnly "No file uploaded")
       | FilePart file tooLarge =>
           resp = mkResponse 500
                    (ErrorMessage "Internal server error"
                       (match fileFilter file with
                        | Throw err => message err
                        | Ok _ => "File too large"
                        end))
       end.
Proof.
  intros Hrej. unfold handle.
  destruct inc as [|file tooLarge].
  - cbn [upload_single]. svc_unfold. cbn [req_file].
    eexists _, _. split; [reflexivity|]. auto.
  - cbn [upload_single] in *. destruct (fileFilter file) as [b|err].
    + destruct tooLarge; [|now destruct (Hrej file)].
      unfold errorHandler. svc_unfold. eexists _, _.
      split; [reflexivity|]. cbn. auto.
    + unfold errorHandler. svc_unfold. eexists _, _.
      split; [reflexivity|]. cbn. auto.
Qed.

Lemma upload_rejected_before_storage_witness :
  exists w',
    handle (PostUpload (FilePart notes_txt false)) w_fresh
    = (Ok (mkResponse 500
             (ErrorMessage "Internal server error"
                           "Only image and PDF files are allowed")), w')
    /\ trace w' = trace w_fresh.
Proof.
  destruct (upload_rejected_before_storage (FilePart notes_txt false) w_fresh)
    as (resp & w' & Hrun & Htr & _ & _ & Hresp).
  { intros file. vm_compute. discriminate. }
  exists w'. rewrite Hrun, Hresp. split; [reflexivity | exact Htr].
Defined.

(** ** All routes *)

(** X3. No route lets an exception escape: whatever the environment does,
    each handler ends with a response, and its status is among 201/400/500
    for POST upload, 200/500 for the listing, 200/400/404/500 for GET by id
    and 200/400/500 for DELETE by id (never 404). *)
Theorem handle_always_responds (r : Route) (w : World) :
  exists resp w',
    handle r w = (Ok resp, w') /\ status resp ∈ statuses_of r.
Proof.
  destruct r as [inc| |id|id]; unfold handle.
  - destruct (upload_single inc) as [[file|]|err];
      [| |unfold errorHandler]; svc_cases; cbn [req_file];
      svc_cases; eexists _, _; (split; [reflexivity|status_in]).
  - svc_cases; eexists _, _; (split; [reflexivity|status_in]).
  - unfold ImageController.getImageById. cbn [params_id].
    destruct (parseInt id); svc_cases; eexists _, _;
      (split; [reflexivity|status_in]).
  - unfold ImageController.deleteImage. cbn [params_id].
    destruct (parseInt id); svc_cases; eexists _, _;
      (split; [reflexivity|status_in]).
Qed.



(** ** Partial failures of upload and delete *)

(** X5. When the blob write succeeds and the metadata create then fails,
    upload fails with its generic error and leaves an orphan: the object
    stays in the bucket under the derived key, no Record refers to it, and
    nothing removes it. *)
Theorem upload_create_failure_leaves_orphan
    (w : World) (file : File) (bucket : string) (e : Error) :
  bucket_of w = Some bucket ->
  faults w (upload_save_call w bucket file) = None ->
  faults w (upload_create_call w bucket file) = Some e ->
  exists w',
    ImageService.uploadImage file w
    = (Throw (mkError "Failed to upload image"), w')
    /\ rows w' = rows w
    /\ objects w' !! (bucket, fileName_of (clock w) (originalname file))
       = Some (mkBlob (buffer file) (mimetype file) cacheControl)
    /\ trace w' = trace w ++ [(upload_save_call w bucket file, true);
                              (upload_create_call w bucket file, false)].
Proof.
  intros Hb Hs Hc.
  unfold ImageService.uploadImage, try_catch, bind at 1.
  rewrite getBucket_run, Hb. svc_unfold.
  unfold upload_save_call in Hs. rewrite Hs. cbn [faults log_call set_objects].
  unfold upload_create_call in Hc. rewrite Hc.
  eexists. split; [reflexivity|]. cbn [rows objects trace log_console log_call].
  split; [reflexivity|]. split; [apply lookup_insert_eq|].
  now rewrite <- app_assoc.
Qed.

Lemma upload_create_failure_leaves_orphan_witness :
  exists w',
    ImageService.uploadImage dog_jpg w_table_readonly
    = (Throw (mkError "Failed to upload image"), w')
    /\ rows w' = [cat_row]
    /\ objects w' !! ("my-app-bucket", "1700000005000.jpg")
       = Some (mkBlob [] "image/jpeg" cacheControl).
Proof.
  destruct (upload_create_failure_leaves_orphan w_table_readonly dog_jpg
              "my-app-bucket" (mkError "P1001: can't reach database server")
              eq_refl eq_refl eq_refl)
    as (w' & Hrun & Hrows & Hobj & _).
  exists w'. split; [exact Hrun|]. split; [exact Hrows|]. exact Hobj.
Defined.

(** X6. When the blob deletion succeeds and the metadata delete then
    fails, delete fails with its generic error and leaves a dangling Record:
    the row is still in the table while the object it points to is gone. *)
Theorem delete_row_failure_leaves_dangling_record
    (w : World) (i : Z) (img : Image) (bucket key : string) (o : Blob)
    (e : Error) :
  bucket_of w = Some bucket ->
  faults w (ImageFindUnique i) = None ->
  find_row i (rows w) = Some img ->
  fileName_from_url (image_url img) = Some key ->
  key <> "" ->
  faults w (BlobDelete bucket key) = None ->
  objects w !! (bucket, key) = Some o ->
  faults w (ImageDelete i) = Some e ->
  exists w',
    ImageService.deleteImage i w
    = (Throw (mkError "Failed to delete image"), w')
    /\ find_row i (rows w') = Some img
    /\ objects w' !! (bucket, key) = None
    /\ trace w' = trace w ++ [(ImageFindUnique i, true);
                              (BlobDelete bucket key, true);
                              (ImageDelete i, false)].
Proof.
  intros Hb Hf Hr Hk Hne Hbd Ho He.
  unfold ImageService.deleteImage, try_catch, bind at 1.
  rewrite getBucket_run, Hb. svc_unfold. rewrite Hf, Hr.
  cbn [image_url]. rewrite Hk.
  destruct key as [|c key]; [congruence|].
  cbn [faults log_call objects]. rewrite Hbd, Ho.
  cbn [faults log_call set_objects]. rewrite He.
  eexists. split; [reflexivity|].
  cbn [rows objects trace log_console log_call set_objects].
  split; [exact Hr|]. split; [apply lookup_delete_eq|].
  now rewrite <- !app_assoc.
Qed.

Lemma delete_row_failure_leaves_dangling_record_witness :
  exists w',
    ImageService.deleteImage 1 w_table_readonly
    = (Throw (mkError "Failed to delete image"), w')
    /\ find_row 1 (rows w') = Some cat_row
    /\ objects w' !! ("my-app-bucket", "1700000000000.png") = None.
Proof.
  destruct (delete_row_failure_leaves_dangling_record w_table_readonly 1
              cat_row "my-app-bucket" "1700000000000.png" cat_blob
              (mkError "P1001: can't reach database server"))
    as (w' & Hrun & Hrow & Hobj & _); try reflexivity; [discriminate|].
  exists w'. auto.
Defined.

Lemma find_row_without_id (i : Z) (l : list Image) :
  find_row i (without_id i l) = None.
Proof.
  unfold find_row, without_id. induction l as [|x l IH]; [reflexivity|].
  cbn [List.filter]. destruct (image_id x =? i) eqn:E; cbn [negb]; [exact IH|].
  cbn [List.find]. now rewrite E.
Qed.

Lemma deleteImage_success
    (w : World) (i : Z) (img : Image) (bucket key : string) (o : Blob) :
  bucket_of w = Some bucket ->
  faults w (ImageFindUnique i) = None ->
  find_row i (rows w) = Some img ->
  fileName_from_url (image_url img) = Some key ->
  key <> "" ->
  faults w (BlobDelete bucket key) = None ->
  objects w !! (bucket, key) = Some o ->
  faults w (ImageDelete i) = None ->
  exists w',
    ImageService.deleteImage i w = (Ok tt, w')
    /\ rows w' = without_id i (rows w)
    /\ find_row i (rows w') = None
    /\ objects w' = delete (bucket, key) (objects w)
    /\ trace w' = trace w ++ [(ImageFindUnique i, true);
                              (BlobDelete bucket key, true);
                              (ImageDelete i, true)].
Proof.
  intros Hb Hf Hr Hk Hne Hbd Ho Hd.
  unfold ImageService.deleteImage, try_catch, bind at 1.
  rewrite getBucket_run, Hb. svc_unfold. rewrite Hf, Hr.
  cbn [image_url]. rewrite Hk.
  destruct key as [|c key]; [congruence|].
  cbn [faults log_call objects]. rewrite Hbd, Ho.
  cbn [faults log_call set_objects rows]. rewrite Hd, Hr.
  eexists. split; [reflexivity|].
  cbn [rows objects trace log_console log_call set_objects set_rows].
  split; [reflexivity|]. split; [apply find_row_without_id|].
  split; [reflexivity|]. now rewrite <- !app_assoc.
Qed.

(** X7. On a healthy system, deleting the id of a Record whose blob is in
    the bucket succeeds and removes both: afterwards no row has that id and
    no object is stored under the key taken from the Record's URL; the
    calls were the lookup, the blob deletion and the row deletion, in that
    order. *)
Theorem delete_removes_record_and_blob
    (w : World) (i : Z) (img : Image) (bucket key : string) (o : Blob) :
  bucket_of w = Some bucket ->
  faults w (ImageFindUnique i) = None ->
  find_row i (rows w) = Some img ->
  fileName_from_url (image_url img) = Some key ->
  key <> "" ->
  faults w (BlobDelete bucket key) = None ->
  objects w !! (bucket, key) = Some o ->
  faults w (ImageDelete i) = None ->
  exists w',
    ImageService.deleteImage i w = (Ok tt, w')
    /\ rows w' = without_id i (rows w)
    /\ find_row i (rows w') = None
    /\ objects w' = delete (bucket, key) (objects w)
    /\ trace w' = trace w ++ [(ImageFindUnique i, true);
                              (BlobDelete bucket key, true);
                              (ImageDelete i, true)].
Proof. exact (deleteImage_success w i img bucket key o). Qed.

Lemma delete_removes_record_and_blob_witness :
  exists w',
    ImageService.deleteImage 1 w_one_record = (Ok tt, w')
    /\ rows w' = []
    /\ objects w' !! ("my-app-bucket", "1700000000000.png") = None.
Proof.
  destruct (delete_removes_record_and_blob w_one_record 1 cat_row
              "my-app-bucket" "1700000000000.png" cat_blob)
    as (w' & Hrun & Hrows & _ & Hobj & _); try reflexivity; [discriminate|].
  exists w'. split; [exact Hrun|]. split; [exact Hrows|].
  rewrite Hobj. apply lookup_delete_eq.
Defined.

Lemma fileName_from_url_trailing_slash (prefix : string) :
  fileName_from_url (prefix +:+ "/") = Some "".
Proof.
  unfold fileName_from_url.
  destruct (split_slash_prefix prefix "" eq_refl) as (first & middle & Hs).
  change (prefix +:+ "/") with (prefix +:+ String slash "").
  rewrite Hs. apply pop_snoc.
Qed.

(** X8. For a Record whose URL ends in a slash the derived key is empty:
    delete then skips the bucket altogether, still deletes the row, and
    succeeds; no object is removed. *)
Theorem delete_skips_blob_for_trailing_slash
    (w : World) (i : Z) (img : Image) (bucket prefix : string) :
  bucket_of w = Some bucket ->
  faults w (ImageFindUnique i) = None ->
  find_row i (rows w) = Some img ->
  image_url img = prefix +:+ "/" ->
  faults w (ImageDelete i) = None ->
  exists w',
    ImageService.deleteImage i w = (Ok tt, w')
    /\ rows w' = without_id i (rows w)
    /\ objects w' = objects w
    /\ trace w' = trace w ++ [(ImageFindUnique i, true); (ImageDelete i, true)].
Proof.
  intros Hb Hf Hr Hu Hd.
  unfold ImageService.deleteImage, try_catch, bind at 1.
  rewrite getBucket_run, Hb. svc_unfold. rewrite Hf, Hr.
  rewrite Hu, fileName_from_url_trailing_slash.
  cbn [faults log_call rows]. rewrite Hd, Hr.
  eexists. split; [reflexivity|].
  cbn [rows objects trace log_console log_call set_objects set_rows].
  split; [reflexivity|]. split; [reflexivity|]. now rewrite <- !app_assoc.
Qed.

Lemma delete_skips_blob_for_trailing_slash_witness :
  exists w',
    ImageService.deleteImage 1 w_slash_url = (Ok tt, w')
    /\ rows w' = []
    /\ objects w' = objects w_slash_url.
Proof.
  destruct (delete_skips_blob_for_trailing_slash w_slash_url 1 slash_row
              "my-app-bucket" "https://storage.googleapis.com/my-app-bucket")
    as (w' & Hrun & Hrows & Hobj & _); try reflexivity.
  exists w'. auto.
Defined.

Lemma split_slash_shape (u : string) :
  exists k,
    last (split_slash u) = Some k
    /\ has_slash k = false
    /\ ((split_slash u = [k] /\ u = k)
        \/ exists q seg segs,
             u = q +:+ String slash k /\ split_slash u = seg :: segs
             /\ segs <> []).
Proof.
  induction u as [|c u (k & Hlast & Hk & Hshape)].
  - exists "". split; [reflexivity|]. split; [reflexivity|]. now left.
  - cbn [split_slash]. destruct (Ascii.eqb_spec c slash) as [->|Hc].
    + exists k. split; [|split; [exact Hk|right]].
      * destruct (split_slash u) as [|s l]; [discriminate Hlast|exact Hlast].
      * destruct Hshape as [[Hs ->] | (q & seg & segs & -> & Hs & Hne)].
        -- exists "", "", [k]. rewrite Hs. repeat split. discriminate.
        -- exists (String slash q), "", (seg :: segs). rewrite Hs.
           repeat split. discriminate.
    + destruct Hshape as [[Hs ->] | (q & seg & segs & -> & Hs & Hne)].
      * rewrite Hs. exists (String c k). split; [reflexivity|].
        split; [|now left].
        cbn [has_slash]. rewrite Hk, orb_false_r.
        now apply Ascii.eqb_neq.
      * rewrite Hs in *. exists k. split; [|split; [exact Hk|right]].
        -- destruct segs as [|s l]; [congruence|exact Hlast].
        -- exists (String c q), (String c seg), segs. repeat split. exact Hne.
Qed.

(** X9. The key delete derives from a URL always exists (the result of
    [pop] is never undefined), never contains a slash, and is what follows
    the last slash of the URL, or the whole URL when it has none. *)
Theorem derived_key_is_last_segment (u : string) :
  exists k,
    fileName_from_url u = Some k
    /\ has_slash k = false
    /\ (u = k \/ exists q, u = q +:+ "/" +:+ k).
Proof.
  destruct (split_slash_shape u) as (k & Hlast & Hk & Hshape).
  exists k. split; [exact Hlast|]. split; [exact Hk|].
  destruct Hshape as [[_ ->] | (q & _ & _ & -> & _)]; [now left|right].
  now exists q.
Qed.

(** ** The table's ids *)

Lemma table_ok_append (l : list Image) (n : Z) (name url : string) (t : Z) :
  NoDup (image_id <$> l) ->
  Forall (fun r => image_id r < n) l ->
  NoDup (image_id <$> (l ++ [mkImage n name url t]))
  /\ Forall (fun r => image_id r < n + 1) (l ++ [mkImage n name url t]).
Proof.
  intros Hnd Hlt. split.
  - rewrite fmap_app. apply NoDup_app. split; [exact Hnd|].
    split; [|apply NoDup_singleton].
    intros x Hx Hin. apply list_elem_of_singleton in Hin. cbn in Hin. subst x.
    apply list_elem_of_fmap in Hx as (r & Heq & Hr).
    rewrite Forall_forall in Hlt. specialize (Hlt r Hr). lia.
  - apply Forall_app. split.
    + eapply Forall_impl; [exact Hlt|]. cbn. intros; lia.
    + apply Forall_singleton. cbn. lia.
Qed.

Lemma table_ok_without (l : list Image) (n i : Z) :
  NoDup (image_id <$> l) ->
  Forall (fun r => image_id r < n) l ->
  NoDup (image_id <$> without_id i l)
  /\ Forall (fun r => image_id r < n) (without_id i l).
Proof.
  unfold without_id. induction l as [|x l IH]; intros Hnd Hlt; [now split|].
  rewrite fmap_cons in Hnd. apply NoDup_cons in Hnd as [Hx Hnd].
  apply Forall_cons in Hlt as [Hxn Hlt].
  destruct (IH Hnd Hlt) as [IH1 IH2].
  cbn [List.filter]. destruct (negb (image_id x =? i)); [|now split].
  split; [|now apply Forall_cons].
  rewrite fmap_cons. apply NoDup_cons. split; [|exact IH1].
  intros Hin. apply Hx.
  apply list_elem_of_fmap in Hin as (r & Heq & Hr).
  apply list_elem_of_In, filter_In in Hr as [Hr _].
  rewrite Heq. apply list_elem_of_fmap_2. now apply list_elem_of_In.
Qed.

(** X10. Every operation keeps the table well formed: if the ids of the
    rows are pairwise distinct and below the autoincrement counter before an
    operation, they are so after it, whether the operation succeeds or
    fails. *)
Theorem table_ok_preserved (op : Op) (w : World) :
  table_ok w -> table_ok (run_op op w).2.
Proof.
  intros [Hnd Hlt]. unfold table_ok.
  destruct op; svc_cases; try (split; assumption);
    first [ now apply table_ok_append | now apply table_ok_without ].
Qed.

Lemma table_ok_preserved_witness :
  table_ok (run_op (OpUpload dog_jpg) w_one_record).2.
Proof.
  apply (table_ok_preserved (OpUpload dog_jpg) w_one_record).
  split.
  - apply NoDup_singleton.
  - apply Forall_singleton. cbn. lia.
Defined.

Lemma find_row_fresh (l : list Image) (r : Image) :
  Forall (fun x => image_id x < image_id r) l ->
  find_row (image_id r) (l ++ [r]) = Some r.
Proof.
  unfold find_row. induction l as [|x l IH]; intros Hlt.
  - cbn [app List.find]. now rewrite Z.eqb_refl.
  - apply Forall_cons in Hlt as [Hx Hlt]. cbn [app List.find].
    destruct (image_id x =? image_id r) eqn:E; [lia|]. now apply IH.
Qed.

Lemma without_id_fresh (l : list Image) (r : Image) :
  Forall (fun x => image_id x < image_id r) l ->
  without_id (image_id r) (l ++ [r]) = l.
Proof.
  unfold without_id. induction l as [|x l IH]; intros Hlt.
  - cbn [app List.filter]. now rewrite Z.eqb_refl.
  - apply Forall_cons in Hlt as [Hx Hlt]. cbn [app List.filter].
    destruct (image_id x =? image_id r) eqn:E; [lia|].
    cbn [negb]. now rewrite IH.
Qed.

(** ** Upload followed by a read or a delete *)

(** X11. Insert then look up: on a well-formed table and a healthy
    system, the Record returned by a successful upload is exactly what
    [getImageById] returns for its id right afterwards. *)
Theorem upload_then_getImageById (w : World) (file : File) (bucket : string) :
  table_ok w ->
  bucket_of w = Some bucket ->
  (forall c, faults w c = None) ->
  exists r w1 w2,
    ImageService.uploadImage file w = (Ok r, w1)
    /\ image_id r = next_id w
    /\ image_name r = originalname file
    /\ ImageService.getImageById (image_id r) w1 = (Ok (Some r), w2).
Proof.
  intros [_ Hlt] Hb Hf.
  destruct (upload_success w file bucket Hb (Hf _) (Hf _))
    as (w1 & Hrun & Hrows & Hobj & Htr).
  eexists _, w1, _. split; [exact Hrun|].
  split; [reflexivity|]. split; [reflexivity|].
  assert (Hf1 : faults w1 = faults w).
  { revert Hrun. unfold ImageService.uploadImage, try_catch, bind at 1.
    rewrite getBucket_run, Hb. svc_unfold. rewrite !Hf.
    cbn [faults log_call set_objects]. rewrite !Hf. now intros [= <-]. }
  svc_unfold. rewrite Hf1, Hf, Hrows.
  rewrite (find_row_fresh (rows w) (mkImage (next_id w) _ _ _) Hlt).
  reflexivity.
Qed.

Lemma upload_then_getImageById_witness :
  exists r w1 w2,
    ImageService.uploadImage dog_jpg w_one_record = (Ok r, w1)
    /\ image_id r = 2
    /\ image_name r = "dog.jpg"
    /\ ImageService.getImageById (image_id r) w1 = (Ok (Some r), w2).
Proof.
  apply (upload_then_getImageById w_one_record dog_jpg "my-app-bucket").
  - split; [apply NoDup_singleton | apply Forall_singleton; cbn; lia].
  - reflexivity.
  - reflexivity.
Defined.

Lemma pretty_N_go_nonempty (x : N) (s : string) :
  s <> "" -> pretty_N_go x s <> "".
Proof.
  revert s. induction (N.lt_wf_0 x) as [x _ IH]; intros s Hs.
  destruct (decide (x = 0)%N) as [->|Hx]; [now rewrite pretty_N_go_0|].
  rewrite pretty_N_go_step by lia. apply IH; [apply N.div_lt; lia|discriminate].
Qed.

Lemma fileName_of_nonempty (now : Z) (original : string) :
  fileName_of now original <> "".
Proof.
  unfold fileName_of.
  assert (HN : forall n : N, pretty n <> "").
  { intros n. unfold pretty, pretty_N. case_decide; [discriminate|].
    destruct (decide (n = 0)%N); [contradiction|].
    rewrite pretty_N_go_step by lia. apply pretty_N_go_nonempty. discriminate. }
  assert (HZ : pretty now <> "").
  { destruct now as [|p|p]; unfold pretty, pretty_Z;
      [discriminate | apply HN | discriminate]. }
  destruct (pretty now) as [|c s]; [contradiction|discriminate].
Qed.

(** X12. Upload then delete: on a well-formed table and a healthy system,
    deleting the id a successful upload returned succeeds, brings the table
    back to exactly the rows it had before the upload, and leaves no object
    under the key the upload wrote (so an object that was already stored
    under that key before the upload is lost as well). *)
Theorem upload_then_deleteImage (w : World) (file : File) (bucket : string) :
  table_ok w ->
  bucket_of w = Some bucket ->
  (forall c, faults w c = None) ->
  exists r w1 w2,
    ImageService.uploadImage file w = (Ok r, w1)
    /\ ImageService.deleteImage (image_id r) w1 = (Ok tt, w2)
    /\ rows w2 = rows w
    /\ objects w2
       = delete (bucket, fileName_of (clock w) (originalname file)) (objects w).
Proof.
  intros [_ Hlt] Hb Hf.
  destruct (upload_success w file bucket Hb (Hf _) (Hf _))
    as (w1 & Hrun & Hrows & Hobj & Htr).
  assert (Hw1 : faults w1 = faults w /\ env w1 = env w).
  { revert Hrun. unfold ImageService.uploadImage, try_catch, bind at 1.
    rewrite getBucket_run, Hb. svc_unfold. rewrite !Hf.
    cbn [faults log_call set_objects]. rewrite !Hf. now intros [= <-]. }
  destruct Hw1 as [Hf1 He1].
  set (key := fileName_of (clock w) (originalname file)) in *.
  set (r := mkImage (next_id w) (originalname file)
                    (publicUrl_of bucket key) (db_clock w)) in *.
  assert (Hb1 : bucket_of w1 = Some bucket)
    by (unfold bucket_of in *; now rewrite He1).
  destruct (deleteImage_success w1 (image_id r) r bucket key
              (mkBlob (buffer file) (mimetype file) cacheControl))
    as (w2 & Hdel & Hrows2 & _ & Hobj2 & _).
  - exact Hb1.
  - now rewrite Hf1.
  - rewrite Hrows. now apply find_row_fresh.
  - apply upload_key_recovered.
  - apply fileName_of_nonempty.
  - now rewrite Hf1.
  - rewrite Hobj. apply lookup_insert_eq.
  - now rewrite Hf1.
  - exists r, w1, w2. split; [exact Hrun|]. split; [exact Hdel|].
    split.
    + rewrite Hrows2, Hrows. now apply without_id_fresh.
    + rewrite Hobj2, Hobj. apply delete_insert_eq.
Qed.

Lemma upload_then_deleteImage_witness :
  exists r w1 w2,
    ImageService.uploadImage dog_jpg w_one_record = (Ok r, w1)
    /\ ImageService.deleteImage (image_id r) w1 = (Ok tt, w2)
    /\ rows w2 = rows w_one_record
    /\ objects w2
       = delete ("my-app-bucket",
                 fileName_of (clock w_one_record) (originalname dog_jpg))
                (objects w_one_record).
Proof.
  apply (upload_then_deleteImage w_one_record dog_jpg "my-app-bucket").
  - split; [apply NoDup_singleton | apply Forall_singleton; cbn; lia].
  - reflexivity.
  - reflexivity.
Defined.

(** ** What an operation does to the bucket *)

(** X13. Every operation leaves every object of the bucket alone, except
    that an upload may write the one key it derives and a delete may remove
    the one key it takes from the URL of the Record it was given; the two
    reads never change the bucket. *)
Theorem bucket_frame (op : Op) (w : World) (kk : string * string) :
  objects (run_op op w).2 !! kk <> objects w !! kk ->
  (exists file bucket,
      op = OpUpload file /\ bucket_of w = Some bucket
      /\ kk = (bucket, fileName_of (clock w) (originalname file)))
  \/ (exists i img bucket key,
        op = OpDelete i /\ bucket_of w = Some bucket
        /\ find_row i (rows w) = Some img
        /\ fileName_from_url (image_url img) = Some key
        /\ kk = (bucket, key)).
Proof.
  unfold bucket_of.
  destruct op; svc_cases; intros Hne; try (now destruct Hne).
  all: match type of Hne with
       | <[?k := _]> _ !! _ <> _ =>
           destruct (decide (k = kk)) as [<-|Hk];
           [left; eexists _, _; repeat split; try reflexivity
           |rewrite lookup_insert_ne in Hne by exact Hk; now destruct Hne]
       | delete ?k _ !! _ <> _ =>
           destruct (decide (k = kk)) as [<-|Hk];
           [right; simplify_eq; eexists _, _, _, _; repeat split;
            try eassumption; try reflexivity
           |rewrite lookup_delete_ne in Hne by exact Hk; now destruct Hne]
       end.
Qed.

Lemma bucket_frame_witness :
  (exists file bucket,
      OpDelete 1 = OpUpload file /\ bucket_of w_one_record = Some bucket
      /\ ("my-app-bucket", "1700000000000.png")
         = (bucket, fileName_of (clock w_one_record) (originalname file)))
  \/ (exists i img bucket key,
        OpDelete 1 = OpDelete i /\ bucket_of w_one_record = Some bucket
        /\ find_row i (rows w_one_record) = Some img
        /\ fileName_from_url (image_url img) = Some key
        /\ ("my-app-bucket", "1700000000000.png") = (bucket, key)).
Proof.
  apply (bucket_frame (OpDelete 1) w_one_record
           ("my-app-bucket", "1700000000000.png")).
  vm_compute. discriminate.
Defined.

(** ** GET by id *)

(** X14. When the id parameter parses to [n] and the metadata store
    answers, GET by id replies 200 with the row whose id is [n] if there is
    one and 404 ['Image not found'] otherwise; it makes that single lookup
    and changes neither the table nor the bucket. *)
Theorem getImageById_found_or_404 (id : string) (n : Z) (w : World) :
  parseInt id = Some n ->
  faults w (ImageFindUnique n) = None ->
  exists w',
    handle (GetImage id) w
    = (Ok (match find_row n (rows w) with
           | Some image => mkResponse 200 (ImageBody image)
           | None => mkResponse 404 (ErrorOnly "Image not found")
           end), w')
    /\ rows w' = rows w /\ objects w' = objects w
    /\ trace w' = trace w ++ [(ImageFindUnique n, true)].
Proof.
  intros Hn Hf. unfold handle, ImageController.getImageById.
  cbn [params_id]. rewrite Hn. svc_unfold. rewrite Hf.
  destruct (find_row n (rows w)); (eexists; split; [reflexivity|]); cbn; auto.
Qed.

Lemma getImageById_found_or_404_witness :
  exists w',
    handle (GetImage "1") w_one_record
    = (Ok (mkResponse 200 (ImageBody cat_row)), w')
    /\ rows w' = rows w_one_record /\ objects w' = objects w_one_record
    /\ trace w' = trace w_one_record ++ [(ImageFindUnique 1, true)].
Proof.
  apply (getImageById_found_or_404 "1" 1 w_one_record); reflexivity.
Defined.



(** ** The order of the external calls *)

(** X16. The calls of an upload, in order: nothing at all when the bucket
    name is not configured; otherwise the blob write first, and the metadata
    create only after the blob write has succeeded.  The upload returns a
    Record exactly when both calls succeeded. *)
Theorem upload_call_order (file : File) (w : World) :
  exists evs,
    trace (ImageService.uploadImage file w).2 = trace w ++ evs
    /\ match bucket_of w with
       | None => evs = []
       | Some bucket =>
           let save := upload_save_call w bucket file in
           let create := upload_create_call w bucket file in
           evs = [(save, false)]
           \/ evs = [(save, true); (create, false)]
           \/ evs = [(save, true); (create, true)]
       end
    /\ ((exists r, (ImageService.uploadImage file w).1 = Ok r)
        <-> exists save create, evs = [(save, true); (create, true)]).
Proof.
  unfold bucket_of, upload_save_call, upload_create_call.
  svc_cases; trace_tail;
    (eexists; split; [try reflexivity; symmetry; apply app_nil_r|]);
    (split; [auto|]);
    (split; [intros [r_ Hr_]; try discriminate Hr_; eauto
            |intros (sv_ & cr_ & Hev_); try discriminate Hev_; eauto]).
Qed.

(** X17. The calls of a delete, in order: the lookup first; the blob
    deletion only when the lookup found a Record with a non-empty key; the
    row deletion only when the lookup found a Record and the blob deletion,
    if there was one, succeeded.  The delete succeeds exactly when the row
    deletion was made and succeeded. *)
Theorem delete_call_order (i : Z) (w : World) :
  exists evs,
    trace (ImageService.deleteImage i w).2 = trace w ++ evs
    /\ match bucket_of w with
       | None => evs = []
       | Some bucket =>
           evs = [(ImageFindUnique i, false)]
           \/ (find_row i (rows w) = None /\ evs = [(ImageFindUnique i, true)])
           \/ exists img key,
                find_row i (rows w) = Some img
                /\ fileName_from_url (image_url img) = Some key
                /\ ((key = ""
                     /\ exists ok, evs = [(ImageFindUnique i, true);
                                          (ImageDelete i, ok)])
                    \/ (key <> ""
                        /\ (evs = [(ImageFindUnique i, true);
                                   (BlobDelete bucket key, false)]
                            \/ exists ok,
                                 evs = [(ImageFindUnique i, true);
                                        (BlobDelete bucket key, true);
                                        (ImageDelete i, ok)])))
       end
    /\ ((ImageService.deleteImage i w).1 = Ok tt
        <-> (ImageDelete i, true) ∈ evs).
Proof.
  unfold bucket_of.
  svc_cases; trace_tail;
    (eexists; split; [try reflexivity; symmetry; apply app_nil_r|]);
    (split;
     [ first
         [ reflexivity
         | left; reflexivity
         | right; left; split; reflexivity
         | exfalso;
           match goal with
           | H : fileName_from_url ?u = None |- _ =>
               destruct (split_slash_shape u) as (k_ & Hl_ & _);
               unfold fileName_from_url, pop in H; congruence
           end
         | right; right; eexists _, _;
           split; [reflexivity|]; split; [eassumption|];
           first [ left; split; [reflexivity|]; eexists; reflexivity
                 | right; split; [discriminate|];
                   first [ left; reflexivity
                         | right; eexists; reflexivity ] ] ]
     | split;
       [ intros Hok_; try discriminate Hok_;
         repeat first [apply list_elem_of_here | apply list_elem_of_further]
       | intros Hin_; events_inv Hin_; reflexivity ] ]).
Qed.

(** ** A successful POST, and a repeated DELETE *)



Lemma deleteImage_keeps_config (i : Z) (w : World) :
  env (ImageService.deleteImage i w).2 = env w
  /\ faults (ImageService.deleteImage i w).2 = faults w.
Proof. svc_cases; split; reflexivity. Qed.

(** X19. DELETE is not idempotent: after a delete that succeeded, a second
    delete of the same id on the same healthy system fails with the generic
    delete error; it makes the lookup only and touches neither the bucket
    nor the table. *)
Theorem delete_twice_fails
    (w : World) (i : Z) (img : Image) (bucket key : string) (o : Blob) :
  bucket_of w = Some bucket ->
  (forall c, faults w c = None) ->
  find_row i (rows w) = Some img ->
  fileName_from_url (image_url img) = Some key ->
  key <> "" ->
  objects w !! (bucket, key) = Some o ->
  exists w1 w2,
    ImageService.deleteImage i w = (Ok tt, w1)
    /\ ImageService.deleteImage i w1
       = (Throw (mkError "Failed to delete image"), w2)
    /\ rows w2 = rows w1
    /\ objects w2 = objects w1
    /\ trace w2 = trace w1 ++ [(ImageFindUnique i, true)].
Proof.
  intros Hb Hf Hr Hk Hne Ho.
  destruct (deleteImage_success w i img bucket key o
              Hb (Hf _) Hr Hk Hne (Hf _) Ho (Hf _))
    as (w1 & Hrun & _ & Hgone & _).
  destruct (deleteImage_keeps_config i w) as [He1 Hf1].
  rewrite Hrun in He1, Hf1. cbn [snd] in He1, Hf1.
  destruct (delete_missing_record w1 i bucket) as (w2 & Hrun2 & H2).
  - unfold bucket_of in *. now rewrite He1.
  - now rewrite Hf1.
  - exact Hgone.
  - exists w1, w2. split; [exact Hrun|]. split; [exact Hrun2|]. exact H2.
Qed.

Lemma delete_twice_fails_witness :
  exists w1 w2,
    ImageService.deleteImage 1 w_one_record = (Ok tt, w1)
    /\ ImageService.deleteImage 1 w1
       = (Throw (mkError "Failed to delete image"), w2)
    /\ rows w2 = rows w1
    /\ objects w2 = objects w1
    /\ trace w2 = trace w1 ++ [(ImageFindUnique 1, true)].
Proof.
  apply (delete_twice_fails w_one_record 1 cat_row "my-app-bucket"
           "1700000000000.png" cat_blob); try reflexivity. discriminate.
Defined.

(** ** Worked examples *)

Example extname_examples :
  map extname ["index.html"; "index.coffee.md"; "index."; "index"; ".index";
               ".index.md"; "photo.PNG"; "dir.d/file"]
  = [".html"; ".md"; "."; ""; ""; ".md"; ".PNG"; ""].
Proof. reflexivity. Qed.

Example parseInt_examples :
  map parseInt ["42"; "  42"; "-12x"; "+5"; "7abc"; "3.9"; "abc"; ""; "0x1A";
                "0xyz"; ".5"]
  = [Some 42; Some 42; Some (-12); Some 5; Some 7; Some 3; None; None;
     Some 26; None; None].
Proof. reflexivity. Qed.

(** Upload then delete on a healthy system: the Record returned by upload
    carries the URL of the blob, and deleting its id removes both. *)
Example upload_then_delete :
  let up := ImageService.uploadImage cat_png w_fresh in
  let del := ImageService.deleteImage 1 up.2 in
  up.1 = Ok cat_row
  /\ objects up.2 !! ("my-app-bucket", "1700000000000.png") = Some cat_blob
  /\ del.1 = Ok tt
  /\ rows del.2 = []
  /\ objects del.2 !! ("my-app-bucket", "1700000000000.png") = None.
Proof. vm_compute. repeat split; reflexivity. Qed.
